(** * Brand Playbook Intelligence: a shallow embedding of the client code
      and of the retrieval pipeline it talks to.

    The development first embeds the TypeScript sources of the front end
    ([frontend/src/types/index.ts], the [ApiClient] class, the
    [QueryInterface], [DocumentList] and [ApiKeySettings] components),
    then models the retrieval-augmented question answering core (chunker,
    vector index, retriever, answer synthesizer, ingestion orchestrator),
    and then proves the properties of both, in that order.

    Conventions.
    - A JavaScript string is a [string]; one [ascii] stands for one code
      unit, so the model covers the strings whose code units are below 256.
    - A JavaScript [number] that holds a finite value is a rational [Q];
      the only arithmetic performed on such numbers by the embedded code is
      a division by 1024 of a value at least 1024, which is exact on
      binary floating point numbers.
    - [localStorage], [sessionStorage] and the axios default headers are
      finite maps from strings to strings. *)

From Stdlib Require Import ZArith QArith Qabs Qround Qminmax String Ascii List Lia Bool.
From stdpp Require Import base option list gmap strings pretty sorting.
From Equations Require Import Equations.

Local Open Scope string_scope.
Local Open Scope Z_scope.

(** A value together with the equation that names it, for the functions
    defined by well-founded recursion on a test. *)
Definition inspect {A : Type} (a : A) : {b : A | a = b} := exist _ a eq_refl.

(** ** JavaScript built-ins used by the sources *)

Module JS.

(** [null | T] and optional fields. *)
Definition nullable (A : Type) : Type := option A.

(** Truthiness of a [string | null] value: [null] and [""] are falsy. *)
Definition truthy (v : nullable string) : bool :=
  match v with
  | None => false
  | Some s => negb (String.eqb s "")
  end.

(** The clamping of an index argument to [0 .. len]. *)
Definition clamp (len i : Z) : Z := Z.min (Z.max i 0) len.

(** [s.substring(start, end)]: both indices are clamped to the length
    of the string and swapped when [start > end]. *)
Definition substring (s : string) (istart iend : Z) : string :=
  let len := Z.of_nat (String.length s) in
  let a := clamp len istart in
  let b := clamp len iend in
  let from := Z.min a b in
  let upto := Z.max a b in
  String.substring (Z.to_nat from) (Z.to_nat (upto - from)) s.

(** [s.substring(start)]: the end defaults to the length. *)
Definition substring_from (s : string) (istart : Z) : string :=
  substring s istart (Z.of_nat (String.length s)).

(** [arr.slice(start)]: a negative [start] counts from the end; the
    relative start is clamped to [0 .. len]. *)
Definition slice_from {A : Type} (arr : list A) (istart : Z) : list A :=
  let len := Z.of_nat (List.length arr) in
  let k := if istart <? 0 then Z.max (len + istart) 0 else Z.min istart len in
  drop (Z.to_nat k) arr.

(** White space and line terminators among the code units below 256:
    TAB, LF, VT, FF, CR, SPACE and NO-BREAK SPACE. *)
Definition is_white_space (c : ascii) : bool :=
  let n := nat_of_ascii c in
  ((9 <=? n)%nat && (n <=? 13)%nat) || (n =? 32)%nat || (n =? 160)%nat.

Fixpoint trim_start (s : string) : string :=
  match s with
  | EmptyString => EmptyString
  | String c s' => if is_white_space c then trim_start s' else s
  end.

Definition trim_end (s : string) : string :=
  String.rev (trim_start (String.rev s)).

(** [s.trim()]. *)
Definition trim (s : string) : string := trim_end (trim_start s).

(** [s.startsWith(p)] *)
Definition startsWith (s p : string) : bool := String.prefix p s.

(** [s.includes(p)]: [p] occurs at some position of [s]. *)
Fixpoint includes (s p : string) : bool :=
  String.prefix p s ||
  match s with
  | EmptyString => false
  | String _ s' => includes s' p
  end.

(** The lower case of a code unit below 256: the letters A to Z and the
    Latin-1 capitals from 192 to 222, the multiplication sign 215 apart,
    move up by 32. *)
Definition to_lower (c : ascii) : ascii :=
  let n := nat_of_ascii c in
  if ((65 <=? n)%nat && (n <=? 90)%nat) ||
     ((192 <=? n)%nat && (n <=? 222)%nat && negb (n =? 215)%nat)
  then ascii_of_nat (n + 32) else c.

(** [s.toLowerCase()] *)
Fixpoint toLowerCase (s : string) : string :=
  match s with
  | EmptyString => EmptyString
  | String c s' => String (to_lower c) (toLowerCase s')
  end.

(** A value of type [string | undefined] inside a template literal. *)
Definition template (v : nullable string) : string :=
  match v with
  | Some s => s
  | None => "undefined"
  end.

End JS.

(** ** [frontend/src/types/index.ts] *)

(** A finite JavaScript number. *)
Definition number : Type := Q.

Record Passage : Type := mkPassage {
  content : string;
  page_number : number;
  chunk_type : string;
  score : number
}.

Record QuestionResponse : Type := mkQuestionResponse {
  answer : string;
  passages : list Passage;
  confidence : number;
  tokens_used : number;
  follow_up_questions : list string
}.

Inductive Role : Type := user | assistant.

Record ConversationMessage : Type := mkConversationMessage {
  role : Role;
  msg_content : string;
  timestamp : Z;
  msg_passages : JS.nullable (list Passage);
  msg_confidence : JS.nullable number
}.

(** ** [ApiKeySettings.maskApiKey] *)

Definition maskApiKey (key : string) : string :=
  if Z.of_nat (String.length key) <? 8 then key
  else JS.substring key 0 3 ++ "..." ++
       JS.substring_from key (Z.of_nat (String.length key) - 4).

(** ** The [ApiClient] class ([api/client.ts]) *)

Module ApiClient.

(** The instance fields together with the browser storage and the
    axios defaults the methods write to. *)
Record t : Type := mk {
  token : JS.nullable string;
  apiKey : JS.nullable string;
  headers_common : gmap string string;
  localStorage : gmap string string;
  sessionStorage : gmap string string
}.

Definition setAuthToken (tok : string) (c : t) : t :=
  {| token := Some tok;
     apiKey := apiKey c;
     headers_common := <["Authorization" := "Bearer " ++ tok]> (headers_common c);
     localStorage := <["auth_token" := tok]> (localStorage c);
     sessionStorage := sessionStorage c |}.

(** [constructor()]: [axios_common] is [defaults.headers.common] of the
    instance returned by [axios.create]. *)
Definition constructor (axios_common local session : gmap string string) : t :=
  let c := {| token := local !! "auth_token";
              apiKey := None;
              headers_common := axios_common;
              localStorage := local;
              sessionStorage := session |} in
  let c := match token c with
           | Some tok => if JS.truthy (Some tok) then setAuthToken tok c else c
           | None => c
           end in
  {| token := token c;
     apiKey := session !! "openai_api_key";
     headers_common := headers_common c;
     localStorage := localStorage c;
     sessionStorage := sessionStorage c |}.

Definition setApiKey (key : JS.nullable string) (c : t) : t :=
  match key with
  | Some k =>
      if JS.truthy key then
        {| token := token c;
           apiKey := key;
           headers_common := <["X-API-Key" := k]> (headers_common c);
           localStorage := localStorage c;
           sessionStorage := <["openai_api_key" := k]> (sessionStorage c) |}
      else
        {| token := token c;
           apiKey := key;
           headers_common := delete "X-API-Key" (headers_common c);
           localStorage := localStorage c;
           sessionStorage := delete "openai_api_key" (sessionStorage c) |}
  | None =>
      {| token := token c;
         apiKey := None;
         headers_common := delete "X-API-Key" (headers_common c);
         localStorage := localStorage c;
         sessionStorage := delete "openai_api_key" (sessionStorage c) |}
  end.

Definition getApiKey (c : t) : JS.nullable string := apiKey c.

Definition logout (c : t) : t :=
  {| token := None;
     apiKey := apiKey c;
     headers_common := delete "Authorization" (headers_common c);
     localStorage := delete "auth_token" (localStorage c);
     sessionStorage := sessionStorage c |}.

Definition isAuthenticated (c : t) : bool := JS.truthy (token c).

Definition hasApiKey (c : t) : bool := JS.truthy (apiKey c).

(** The request interceptor, applied to the headers of a request. *)
Definition request_interceptor (c : t) (config_headers : gmap string string)
  : gmap string string :=
  let h := match token c with
           | Some tok =>
               if JS.truthy (token c)
               then <["Authorization" := "Bearer " ++ tok]> config_headers
               else config_headers
           | None => config_headers
           end in
  match apiKey c with
  | Some k => if JS.truthy (apiKey c) then <["X-API-Key" := k]> h else h
  | None => h
  end.

(** The headers a request leaves with: the per-request headers over the
    common defaults, then the interceptor. *)
Definition outgoing_headers (c : t) (request_headers : gmap string string)
  : gmap string string :=
  request_interceptor c (request_headers ∪ headers_common c).

End ApiClient.

(** ** The [QueryInterface] component *)

Module QueryInterface.

Record HistoryEntry : Type := mkHistoryEntry {
  h_role : Role;
  h_content : string
}.

(** The body [ApiClient.askQuestion] posts to [/ask]. *)
Record AskBody : Type := mkAskBody {
  body_question : string;
  playbook_id : JS.nullable string;
  conversation_history : list HistoryEntry
}.

(** The component state held by [useState]. *)
Record State : Type := mkState {
  question : string;
  selectedPlaybook : string;
  loading : bool;
  conversation : list ConversationMessage;
  showPassages : JS.nullable nat
}.

Inductive Toast : Type :=
| toast_error (message : string)
| toast_follow_ups (questions : list string).

Definition to_history (msg : ConversationMessage) : HistoryEntry :=
  {| h_role := role msg; h_content := msg_content msg |}.

(** [conversation.slice(-6).map(msg => ({role, content}))] *)
Definition conversationHistory (conv : list ConversationMessage)
  : list HistoryEntry :=
  to_history <$> JS.slice_from conv (-6).

Inductive Started : Type :=
| rejected (t : Toast)
| submitted (st : State) (body : AskBody).

(** [handleSubmit] up to the [await]: the state updates queued by the
    setters and the request handed to [apiClient.askQuestion]. The
    history is read from the [conversation] of the current render, which
    does not hold the message being asked. *)
Definition handleSubmit_begin (now : Z) (st : State) : Started :=
  if String.eqb (JS.trim (question st)) "" then
    rejected (toast_error "Please enter a question")
  else
    let userMessage :=
      {| role := user; msg_content := question st; timestamp := now;
         msg_passages := None; msg_confidence := None |} in
    submitted
      {| question := "";
         selectedPlaybook := selectedPlaybook st;
         loading := true;
         conversation := conversation st ++ [userMessage];
         showPassages := showPassages st |}
      {| body_question := question st;
         playbook_id := if String.eqb (selectedPlaybook st) "all"
                        then None else Some (selectedPlaybook st);
         conversation_history := conversationHistory (conversation st) |}.

(** [handleSubmit] after the [await]: [inl r] is the resolved response,
    [inr detail] a rejected request with the detail the server sent, if
    any. *)
Definition handleSubmit_end (now : Z) (st : State)
    (res : QuestionResponse + JS.nullable string) : State * list Toast :=
  match res with
  | inl response =>
      let assistantMessage :=
        {| role := assistant; msg_content := answer response;
           timestamp := now;
           msg_passages := Some (passages response);
           msg_confidence := Some (confidence response) |} in
      ({| question := question st;
          selectedPlaybook := selectedPlaybook st;
          loading := false;
          conversation := conversation st ++ [assistantMessage];
          showPassages := showPassages st |},
       match follow_up_questions response with
       | [] => []
       | qs => [toast_follow_ups qs]
       end)
  | inr detail =>
      let errorMessage :=
        {| role := assistant;
           msg_content := "Sorry, I encountered an error while processing your question. Please try again.";
           timestamp := now;
           msg_passages := None; msg_confidence := Some 0%Q |} in
      ({| question := question st;
          selectedPlaybook := selectedPlaybook st;
          loading := false;
          conversation := conversation st ++ [errorMessage];
          showPassages := showPassages st |},
       [toast_error (if JS.truthy detail
                     then default "" detail
                     else "Failed to get answer")])
  end.

End QueryInterface.

(** ** [Number.prototype.toFixed] *)

Module Number.

(** [digits.padStart(width, "0")] *)
Definition pad_zeros (width : nat) (digits : string) : string :=
  String.concat "" (replicate (width - String.length digits) "0") ++ digits.

Section ToFixed.

(** [Number::toString] on the values of at least [10^21], which
    [toFixed] renders in exponent notation. *)
Variable toString : Q -> string.

(** [x.toFixed(f)] for a finite [x]: the integer [n] closest to
    [x * 10^f], the larger one on a tie, printed with [f] digits after
    the point. *)
Definition toFixed (x : number) (f : nat) : string :=
  let s := if Qlt_le_dec x 0%Q then "-" else "" in
  let x := Qabs x in
  let m :=
    if Qle_bool (inject_Z (10 ^ 21)) x then toString x
    else
      let n := Qfloor (x * inject_Z (10 ^ Z.of_nat f) + (1 # 2))%Q in
      match f with
      | O => pretty n
      | _ => pretty (n / 10 ^ Z.of_nat f) ++ "." ++
             pad_zeros f (pretty (n mod 10 ^ Z.of_nat f))
      end in
  s ++ m.

End ToFixed.

End Number.

(** ** The [DocumentList] component: [formatFileSize] *)

Module DocumentList.

Definition units : list string := ["B"; "KB"; "MB"; "GB"].

(** The loop condition [size >= 1024 && unitIndex < units.length - 1]. *)
Definition loop_cond (size : number) (unitIndex : nat) : bool :=
  Qle_bool 1024 size &&
  (Z.of_nat unitIndex <? Z.of_nat (List.length units) - 1).

(** The loop body on [size]: [size /= 1024]. *)
Definition shrink (size : number) : number := (size / 1024)%Q.

(** The [while] loop on the pair [(size, unitIndex)]; the recursion is
    justified by the distance of [unitIndex] to the last index. *)
Equations? size_loop (size : number) (unitIndex : nat) : number * nat
  by wf (3 - unitIndex)%nat lt :=
  size_loop size unitIndex with inspect (loop_cond size unitIndex) := {
    | exist _ true Hc => size_loop (shrink size) (S unitIndex)
    | exist _ false Hc => (size, unitIndex) }.
Proof.
  unfold loop_cond in Hc. apply andb_prop in Hc as [_ Hc].
  apply Z.ltb_lt in Hc. simpl in Hc. lia.
Defined.

(** [units[unitIndex]] inside a template literal: an index past the end
    reads [undefined]. *)
Definition unit_at (unitIndex : nat) : string :=
  match units !! unitIndex with
  | Some u => u
  | None => "undefined"
  end.

Section FormatFileSize.

Variable toString : Q -> string.

Definition formatFileSize (bytes : number) : string :=
  let '(size, unitIndex) := size_loop bytes 0 in
  Number.toFixed toString size 1 ++ " " ++ unit_at unitIndex.

End FormatFileSize.

End DocumentList.

(** A string made of white space only (the empty string included). *)
Fixpoint all_white_space (s : string) : bool :=
  match s with
  | EmptyString => true
  | String c s' => JS.is_white_space c && all_white_space s'
  end.

(** ** JSON values and the interfaces of [types/index.ts] as shapes *)

(** A value as [response.data] holds it after axios has parsed the
    body. *)
#[warnings="-register-all"]
Inductive Json : Type :=
| JNull
| JBool (b : bool)
| JNumber (x : number)
| JString (s : string)
| JArray (items : list Json)
| JObject (fields : list (string * Json)).

(** The own property names of an object, in order. *)
Definition object_keys (j : Json) : list string :=
  match j with
  | JObject fields => fst <$> fields
  | _ => []
  end.

(** The property read [j.key]: [None] stands for [undefined]. *)
Definition property (key : string) (j : Json) : option Json :=
  match j with
  | JObject fields =>
      snd <$> List.find (fun kv => String.eqb (fst kv) key) fields
  | _ => None
  end.

Definition as_string (j : Json) : option string :=
  match j with JString s => Some s | _ => None end.

Definition as_number (j : Json) : option number :=
  match j with JNumber x => Some x | _ => None end.

(** An array whose items all read as [A]. *)
Definition as_array {A : Type} (item : Json -> option A) (j : Json)
  : option (list A) :=
  match j with JArray items => mapM item items | _ => None end.

(** The property [key] read at a type: [None] when the property is
    missing or of another type. *)
Definition typed_property {A : Type} (key : string) (read : Json -> option A)
    (j : Json) : option A :=
  match property key j with
  | Some v => read v
  | None => None
  end.

(** The values of the interface [Passage]: an object with a string
    [content], a number [page_number], a string [chunk_type] and a number
    [score]. *)
Definition Passage_of_json (j : Json) : option Passage :=
  match typed_property "content" as_string j,
        typed_property "page_number" as_number j,
        typed_property "chunk_type" as_string j,
        typed_property "score" as_number j with
  | Some c, Some n, Some t, Some s =>
      Some {| content := c; page_number := n; chunk_type := t; score := s |}
  | _, _, _, _ => None
  end.

(** The values of the interface [QuestionResponse]: an object whose
    five declared properties are present with their declared types. *)
Definition QuestionResponse_of_json (j : Json) : option QuestionResponse :=
  match typed_property "answer" as_string j,
        typed_property "passages" (as_array Passage_of_json) j,
        typed_property "confidence" as_number j,
        typed_property "tokens_used" as_number j,
        typed_property "follow_up_questions" (as_array as_string) j with
  | Some a, Some ps, Some c, Some t, Some f =>
      Some {| answer := a; passages := ps; confidence := c;
              tokens_used := t; follow_up_questions := f |}
  | _, _, _, _, _ => None
  end.

(** The property names the interface [QuestionResponse] declares. *)
Definition QuestionResponse_keys : list string :=
  ["answer"; "passages"; "confidence"; "tokens_used"; "follow_up_questions"].

(** ** More of [frontend/src/types/index.ts] *)

Record Playbook : Type := mkPlaybook {
  id : string;
  filename : string;
  file_type : string;
  file_size : number;
  uploaded_by : string;
  created_at : string;
  chunk_count : number
}.

Module ApiKeyValidationResponse.

Record t : Type := mk {
  valid : bool;
  message : string;
  model : JS.nullable string
}.

End ApiKeyValidationResponse.

(** ** The interceptors and [login] of [ApiClient] *)

Module ApiClientResponses.

Inductive Effect : Type :=
| redirect (href : string)
| toast_error (message : string).

(** The rejection handler of the response interceptor. [status] is
    [error.response?.status] and [detail] is
    [error.response.data?.detail]; the error is rejected again in every
    case. *)
Definition response_error (status : JS.nullable Z) (detail : JS.nullable string)
    (c : ApiClient.t) : ApiClient.t * list Effect :=
  match status with
  | None => (c, [])
  | Some code =>
      if code =? 401 then
        (ApiClient.logout c,
         [redirect "/login"; toast_error "Session expired. Please login again."])
      else if code =? 429 then
        (c, [toast_error "Too many requests. Please slow down."])
      else if code =? 400 then
        let errorMessage := if JS.truthy detail then default "" detail else "" in
        (c, if JS.includes errorMessage "OpenAI API key"
            then [toast_error "Please set your OpenAI API key in the settings."]
            else [])
      else if code =? 500 then
        (c, [toast_error "Server error. Please try again later."])
      else (c, [])
  end.

(** [login] once the request has resolved with [response.data.access_token]. *)
Definition login_resolved (access_token : JS.nullable string) (c : ApiClient.t)
  : ApiClient.t :=
  match access_token with
  | Some tok => if JS.truthy access_token then ApiClient.setAuthToken tok c else c
  | None => c
  end.

(** A page reload: a new client is constructed over the storage the old
    one leaves. *)
Definition reload (axios_common : gmap string string) (c : ApiClient.t)
  : ApiClient.t :=
  ApiClient.constructor axios_common
    (ApiClient.localStorage c) (ApiClient.sessionStorage c).

End ApiClientResponses.

(** The fields of the client agree with the browser storage: the token is
    set exactly when [auth_token] is stored, the key exactly when
    [openai_api_key] is stored, and a set value is the stored one. *)
Definition in_sync (c : ApiClient.t) : Prop :=
  JS.truthy (ApiClient.token c) = JS.truthy (ApiClient.localStorage c !! "auth_token") /\
  (JS.truthy (ApiClient.token c) = true ->
   ApiClient.token c = ApiClient.localStorage c !! "auth_token") /\
  JS.truthy (ApiClient.apiKey c) =
    JS.truthy (ApiClient.sessionStorage c !! "openai_api_key") /\
  (JS.truthy (ApiClient.apiKey c) = true ->
   ApiClient.apiKey c = ApiClient.sessionStorage c !! "openai_api_key").

(** ** The [ApiKeySettings] component *)

Module ApiKeySettings.

Record State : Type := mkState {
  apiKey : string;
  showApiKey : bool;
  validating : bool;
  isValid : JS.nullable bool;
  currentKey : JS.nullable string;
  model : JS.nullable string
}.

Inductive Toast : Type :=
| toast_error (message : string)
| toast_success (message : string).

(** What a handler leaves: the component state, the client, the toasts
    shown, the key posted to [/validate-api-key] if any, and whether the
    [onApiKeySet] callback ran. *)
Record Run : Type := mkRun {
  state : State;
  client : ApiClient.t;
  toasts : list Toast;
  requested : JS.nullable string;
  notified : bool
}.

Definition double_quote : string := String (ascii_of_nat 34) EmptyString.

(** The effect run on mount. *)
Definition on_mount (st : State) (c : ApiClient.t) : State :=
  match ApiClient.getApiKey c with
  | Some existingKey =>
      if JS.truthy (Some existingKey) then
        {| apiKey := existingKey; showApiKey := showApiKey st;
           validating := validating st; isValid := Some true;
           currentKey := Some existingKey; model := model st |}
      else st
  | None => st
  end.

(** [handleValidateAndSet]: [onApiKeySet] tells whether the callback
    prop is given. [response] is the outcome of
    [apiClient.validateApiKey]: [inl r] the resolved response body,
    [inr (status, detail)] a rejected request. A rejection reaches the
    [catch] block through the response interceptor of the client, whose
    effects are returned beside the run. *)
Definition handleValidateAndSet (onApiKeySet : bool) (st : State)
    (c : ApiClient.t)
    (response : ApiKeyValidationResponse.t + JS.nullable Z * JS.nullable string)
  : Run * list ApiClientResponses.Effect :=
  if String.eqb (JS.trim (apiKey st)) "" then
    ({| state := st; client := c;
        toasts := [toast_error "Please enter an API key"];
        requested := None; notified := false |}, [])
  else if negb (JS.startsWith (apiKey st) "sk-") then
    ({| state := st; client := c;
        toasts := [toast_error ("Invalid API key format. OpenAI API keys start with "
                                ++ double_quote ++ "sk-" ++ double_quote)];
        requested := None; notified := false |}, [])
  else
    match response with
    | inl r =>
        if ApiKeyValidationResponse.valid r then
          ({| state := {| apiKey := apiKey st; showApiKey := showApiKey st;
                          validating := false; isValid := Some true;
                          currentKey := Some (apiKey st);
                          model := ApiKeyValidationResponse.model r |};
              client := ApiClient.setApiKey (Some (apiKey st)) c;
              toasts := [toast_success ("API key validated! Using model: "
                                        ++ JS.template (ApiKeyValidationResponse.model r))];
              requested := Some (apiKey st);
              notified := onApiKeySet |}, [])
        else
          ({| state := {| apiKey := apiKey st; showApiKey := showApiKey st;
                          validating := false; isValid := Some false;
                          currentKey := currentKey st; model := model st |};
              client := c;
              toasts := [toast_error (ApiKeyValidationResponse.message r)];
              requested := Some (apiKey st); notified := false |}, [])
    | inr (status, detail) =>
        let intercepted := ApiClientResponses.response_error status detail c in
        ({| state := {| apiKey := apiKey st; showApiKey := showApiKey st;
                        validating := false; isValid := Some false;
                        currentKey := currentKey st; model := model st |};
            client := fst intercepted;
            toasts := [toast_error "Failed to validate API key"];
            requested := Some (apiKey st); notified := false |},
         snd intercepted)
    end.

Definition handleRemoveKey (st : State) (c : ApiClient.t) : Run :=
  {| state := {| apiKey := ""; showApiKey := showApiKey st;
                 validating := validating st; isValid := None;
                 currentKey := None; model := None |};
     client := ApiClient.setApiKey None c;
     toasts := [toast_success "API key removed"];
     requested := None; notified := false |}.

End ApiKeySettings.

(** ** More of the [DocumentList] component *)

Module DocumentListView.

(** The number [toFixed(1)] shows for [x], in tenths: the integer
    nearest to [10 x], the larger one on a tie. *)
Definition shown_tenths (x : number) : Z := Qfloor (x * 10 + (1 # 2))%Q.

(** [documents.filter(doc =>
      doc.filename.toLowerCase().includes(searchTerm.toLowerCase()))] *)
Definition filteredDocuments (documents : list Playbook) (searchTerm : string)
  : list Playbook :=
  List.filter
    (fun doc => JS.includes (JS.toLowerCase (filename doc)) (JS.toLowerCase searchTerm))
    documents.

(** The pagination handlers on the integer [page]:
    [p => Math.max(1, p - 1)], [p => Math.min(totalPages, p + 1)] and the
    targets [i + 1] of the buttons [[...Array(totalPages)]]. *)
Definition previousPage (p : Z) : Z := Z.max 1 (p - 1).

Definition nextPage (totalPages p : Z) : Z := Z.min totalPages (p + 1).

Definition pageButtons (totalPages : Z) : list Z :=
  (fun i => Z.of_nat i + 1) <$> seq 0 (Z.to_nat totalPages).

End DocumentListView.

(** * The retrieval-augmented question answering core

    The server side of the application (chunker, embedding client, vector
    index, retriever, answer synthesizer, ingestion orchestrator) is
    modelled here from its specification. Text is a list of characters;
    sizes and overlaps are counted in characters; scores are rationals. *)

Module Core.

Local Open Scope nat_scope.
Local Open Scope list_scope.

Definition text : Type := list ascii.
Definition vector : Type := list Q.
Definition DocumentId : Type := string.

Inductive Error : Type :=
| ExtractionFailed
| EmbeddingUnavailable
| DimensionMismatch
| GenerationUnavailable.

Inductive result (A : Type) : Type :=
| Ok (a : A)
| Err (e : Error).
Arguments Ok {A} a.
Arguments Err {A} e.

Inductive Tag : Type := narrative | table | slide_note.

Definition Tag_eqb (a b : Tag) : bool :=
  match a, b with
  | narrative, narrative | table, table | slide_note, slide_note => true
  | _, _ => false
  end.

(** Modelled from the spec: the Chunk of the data model (section 3),
    before it is embedded. [chunk_overlap] is the number of leading
    characters the chunk repeats from the end of its predecessor. *)
Record Chunk : Type := mkChunk {
  chunk_text : text;
  chunk_tag : Tag;
  chunk_locator : nat;
  chunk_seq : nat;
  chunk_overlap : nat
}.

(** ** Chunker (section 4.1) *)

(** A structural boundary reported by the text extractor: the next
    [span] characters form one unit with the given tag and page or slide
    number. *)
Record Boundary : Type := mkBoundary {
  span : nat;
  boundary_tag : Tag;
  boundary_locator : nat
}.

Record Unit : Type := mkUnit {
  unit_text : text;
  unit_tag : Tag;
  unit_locator : nat
}.

Record Config : Type := mkConfig {
  target_size : nat;
  max_size : nat;
  overlap : nat
}.

(** Modelled from the spec: the text cut along the reported boundaries;
    text that no boundary covers is one narrative unit (size-only
    splitting). *)
Fixpoint units_of (locator : nat) (t : text) (bs : list Boundary) : list Unit :=
  match bs with
  | [] =>
      match t with
      | [] => []
      | _ => [ {| unit_text := t; unit_tag := narrative; unit_locator := locator |} ]
      end
  | b :: bs' =>
      {| unit_text := take (span b) t;
         unit_tag := boundary_tag b;
         unit_locator := boundary_locator b |}
      :: units_of (boundary_locator b) (drop (span b) t) bs'
  end.

(** The position just after the last white space of [t], if any. *)
Fixpoint after_last_space (t : text) : option nat :=
  match t with
  | [] => None
  | c :: t' =>
      match after_last_space t' with
      | Some i => Some (S i)
      | None => if JS.is_white_space c then Some 1 else None
      end
  end.

(** Where an oversize unit is cut: after the nearest white space before
    the limit, at the limit when there is none, and never at 0. *)
Definition cut_point (limit : nat) (t : text) : nat :=
  Nat.max 1 (default limit (after_last_space (take limit t))).

(** Modelled from the spec: a unit longer than the maximum chunk size is
    force-split at the nearest white space boundary before the limit. *)
Equations? force_split (limit : nat) (t : text) : list text
  by wf (length t) lt :=
  force_split limit t with inspect (length t <=? limit) := {
    | exist _ true _ => [t]
    | exist _ false Hlen =>
        take (cut_point limit t) t ::
        force_split limit (drop (cut_point limit t) t) }.
Proof.
  apply Nat.leb_gt in Hlen. rewrite length_drop. unfold cut_point. lia.
Defined.

(** The running buffer: the overlap carried over from the previous
    chunk and the text accumulated since. *)
Record Buffer : Type := mkBuffer {
  seed : text;
  fresh : text;
  buffer_tag : Tag;
  buffer_locator : nat
}.

Record ChunkerState : Type := mkChunkerState {
  emitted : list Chunk;
  buffer : Buffer
}.

(** The last [n] characters of [t]. *)
Definition trailing (n : nat) (t : text) : text := drop (length t - n) t.

(** Emit the buffer as the next chunk and seed the next buffer with the
    trailing overlap of that chunk; a buffer that holds nothing but its
    seed is not emitted. *)
Definition emit (cfg : Config) (st : ChunkerState) : ChunkerState :=
  let b := buffer st in
  match fresh b with
  | [] => st
  | _ =>
      let c := {| chunk_text := seed b ++ fresh b;
                  chunk_tag := buffer_tag b;
                  chunk_locator := buffer_locator b;
                  chunk_seq := length (emitted st);
                  chunk_overlap := length (seed b) |} in
      {| emitted := emitted st ++ [c];
         buffer := {| seed := trailing (overlap cfg) (chunk_text c);
                      fresh := [];
                      buffer_tag := buffer_tag b;
                      buffer_locator := buffer_locator b |} |}
  end.

(** A hard structural boundary lies between the buffer and the unit
    when the page or slide number or the kind of text changes. *)
Definition crosses_boundary (b : Buffer) (u : Unit) : bool :=
  negb (Tag_eqb (buffer_tag b) (unit_tag u) &&
        (buffer_locator b =? unit_locator u)).

(** Accumulate one piece of the unit [u]; emit when a hard boundary is
    crossed and when the buffer reaches the target size. *)
Definition push_piece (cfg : Config) (u : Unit) (st : ChunkerState) (p : text)
  : ChunkerState :=
  let st := if crosses_boundary (buffer st) u then emit cfg st else st in
  let b := buffer st in
  let st := {| emitted := emitted st;
               buffer := {| seed := seed b;
                            fresh := fresh b ++ p;
                            buffer_tag := unit_tag u;
                            buffer_locator := unit_locator u |} |} in
  if target_size cfg <=? length (seed b ++ fresh b ++ p)
  then emit cfg st else st.

(** A table region is a chunk of its own, whatever its size. *)
Definition push_table (cfg : Config) (u : Unit) (st : ChunkerState)
  : ChunkerState :=
  match unit_text u with
  | [] => st
  | _ =>
      let st := emit cfg st in
      let c := {| chunk_text := unit_text u;
                  chunk_tag := table;
                  chunk_locator := unit_locator u;
                  chunk_seq := length (emitted st);
                  chunk_overlap := 0 |} in
      {| emitted := emitted st ++ [c];
         buffer := {| seed := trailing (overlap cfg) (unit_text u);
                      fresh := [];
                      buffer_tag := table;
                      buffer_locator := unit_locator u |} |}
  end.

Definition push_unit (cfg : Config) (st : ChunkerState) (u : Unit)
  : ChunkerState :=
  match unit_tag u with
  | table => push_table cfg u st
  | _ => fold_left (push_piece cfg u) (force_split (max_size cfg) (unit_text u)) st
  end.

Definition initial : ChunkerState :=
  {| emitted := [];
     buffer := {| seed := []; fresh := [];
                  buffer_tag := narrative; buffer_locator := 0 |} |}.

Definition chunk_units (cfg : Config) (us : list Unit) : list Chunk :=
  emitted (emit cfg (fold_left (push_unit cfg) us initial)).

(** Modelled from the spec: [chunk(text, structuralUnits)] of section
    4.1, the Chunker, whose implementation is not among the sources. It
    walks the text unit by unit, accumulates into a running buffer,
    emits a chunk when the buffer reaches the target size or a hard
    structural boundary is crossed, and seeds the next buffer with the
    trailing overlap of the chunk it emitted. *)
Definition chunk (cfg : Config) (t : text) (bs : list Boundary) : list Chunk :=
  chunk_units cfg (units_of 0 t bs).

(** The text of a chunk sequence once each chunk has lost the overlap it
    shares with its predecessor. *)
Definition reconstruct (cs : list Chunk) : text :=
  concat ((fun c => drop (chunk_overlap c) (chunk_text c)) <$> cs).

(** *** Invariants of the chunker *)

(** The text a chunker state accounts for: what the emitted chunks
    reconstruct to, then the text waiting in the buffer. *)
Definition covered (st : ChunkerState) : text :=
  reconstruct (emitted st) ++ fresh (buffer st).

(** Every chunk of [cs] starts with [chunk_overlap] characters that end
    the text before it, [prev] being the text before the first. *)
Fixpoint overlaps_ok (prev : text) (cs : list Chunk) : Prop :=
  match cs with
  | [] => True
  | c :: cs' =>
      take (chunk_overlap c) (chunk_text c) `suffix_of` prev /\
      chunk_overlap c <= length (chunk_text c) /\
      overlaps_ok (chunk_text c) cs'
  end.

Definition last_text (prev : text) (cs : list Chunk) : text :=
  default prev (chunk_text <$> last cs).

Definition linked (st : ChunkerState) : Prop :=
  overlaps_ok [] (emitted st) /\
  seed (buffer st) `suffix_of` last_text [] (emitted st) /\
  chunk_seq <$> emitted st = seq 0 (length (emitted st)).

(** ** Vector index (section 4.3) *)

Record Entry : Type := mkEntry {
  entry_document : DocumentId;
  entry_chunk : Chunk;
  entry_vector : vector
}.

(** The chunk identifier: the owning document and the sequence index. *)
Definition entry_id (e : Entry) : DocumentId * nat :=
  (entry_document e, chunk_seq (entry_chunk e)).

Definition same_id (e1 e2 : Entry) : bool :=
  String.eqb (entry_document e1) (entry_document e2) &&
  (chunk_seq (entry_chunk e1) =? chunk_seq (entry_chunk e2)).

Definition owned_by (d : DocumentId) (e : Entry) : bool :=
  String.eqb (entry_document e) d.

Record Index : Type := mkIndex {
  dimension : nat;
  entries : list Entry
}.

(** The chunks of the index that the document owns. *)
Definition chunks_of (d : DocumentId) (idx : Index) : list Entry :=
  List.filter (owned_by d) (entries idx).

(** An operation on the index: the index it leaves and its outcome. *)
Definition IndexOp (A : Type) : Type := Index -> Index * result A.

Definition upsert_one (e : Entry) : IndexOp unit := fun idx =>
  if length (entry_vector e) =? dimension idx then
    ({| dimension := dimension idx;
        entries := List.filter (fun e' => negb (same_id e' e)) (entries idx) ++ [e] |},
     Ok tt)
  else (idx, Err DimensionMismatch).

Fixpoint upsert_all (es : list Entry) : IndexOp unit := fun idx =>
  match es with
  | [] => (idx, Ok tt)
  | e :: es' =>
      match upsert_one e idx with
      | (idx', Ok _) => upsert_all es' idx'
      | (idx', Err x) => (idx', Err x)
      end
  end.

(** Modelled from the spec: [upsert(documentId, chunks)] of the Vector
    Index, whose implementation is not among the sources. Chunks are
    written in sequence order; a chunk with the identifier of a stored
    one replaces it; a vector of the wrong dimensionality fails with
    [DimensionMismatch], the chunks written before it staying in place. *)
Definition upsert (d : DocumentId) (cs : list (Chunk * vector)) : IndexOp unit :=
  upsert_all ((fun cv => {| entry_document := d;
                            entry_chunk := fst cv;
                            entry_vector := snd cv |}) <$> cs).

(** Modelled from the spec: [delete(documentId)] of the Vector Index,
    whose implementation is not among the sources. It removes all chunks
    owned by the document and has no failure case. *)
Definition delete (d : DocumentId) : IndexOp unit := fun idx =>
  ({| dimension := dimension idx;
      entries := List.filter (fun e => negb (owned_by d e)) (entries idx) |},
   Ok tt).

Definition nearer (a b : Entry * Q) : Prop := Qle_bool (snd a) (snd b).

Section Search.

(** The distance of the fixed metric, between 0 and 2 for the cosine
    distance. *)
Variable distance : vector -> vector -> Q.

(** Modelled from the spec: [search(queryVector, k, documentIdFilter?)]
    of the Vector Index, whose implementation is not among the
    sources. The filter is a hard constraint; the result is the [k]
    nearest of the chunks it admits, nearest first. *)
Definition search (q : vector) (k : nat) (documentIdFilter : option DocumentId)
    (idx : Index) : list (Entry * Q) :=
  let admitted :=
    List.filter (fun e => match documentIdFilter with
                          | Some d => owned_by d e
                          | None => true
                          end) (entries idx) in
  take k (merge_sort nearer
            ((fun e => (e, distance q (entry_vector e))) <$> admitted)).

End Search.

(** ** Retriever (section 4.4) *)

(** A chunk with its relevance score. *)
Record RetrievedPassage : Type := mkRetrievedPassage {
  source : Entry;
  relevance : Q
}.

Definition passage_seq (p : RetrievedPassage) : nat :=
  chunk_seq (entry_chunk (source p)).

(** [score = 1 - distance / 2] *)
Definition score_of_distance (d : Q) : Q := (1 - d / 2)%Q.

(** The policy knobs of the retriever. *)
Definition similarity_threshold : Q := (3 # 10)%Q.
Definition default_k : nat := 5.

(** Two passages whose source chunks are consecutive chunks of one
    document. *)
Definition adjacent (p q : RetrievedPassage) : bool :=
  String.eqb (entry_document (source p)) (entry_document (source q)) &&
  ((passage_seq p =? S (passage_seq q)) || (passage_seq q =? S (passage_seq p))).

(** Merge [p] into the first kept passage it is adjacent to: the one
    with the higher score stays. *)
Fixpoint absorb (p : RetrievedPassage) (kept : list RetrievedPassage)
  : option (list RetrievedPassage) :=
  match kept with
  | [] => None
  | q :: kept' =>
      if adjacent p q then
        Some ((if Qlt_le_dec (relevance q) (relevance p) then p else q) :: kept')
      else cons q <$> absorb p kept'
  end.

Definition deduplicate (ps : list RetrievedPassage) : list RetrievedPassage :=
  fold_left (fun kept p => default (kept ++ [p]) (absorb p kept)) ps [].

(** The order of the result: higher score first, and among equal scores
    the earlier sequence index first. *)
Definition ranks_before (p q : RetrievedPassage) : bool :=
  if Qeq_bool (relevance p) (relevance q)
  then passage_seq p <=? passage_seq q
  else Qle_bool (relevance q) (relevance p).

Definition ranked (p q : RetrievedPassage) : Prop := ranks_before p q.

Section Retriever.

Variable distance : vector -> vector -> Q.

(** The embedding client: one vector per text, in the order of the
    texts, or [EmbeddingUnavailable] once its retries are used up. *)
Variable embed : list text -> result (list vector).

(** Modelled from the spec: [retrieve(question, documentIdFilter?, k)]
    of section 4.4, the Retriever, whose implementation is not among
    the sources. *)
Definition retrieve (question : text) (documentIdFilter : option DocumentId)
    (k : nat) (idx : Index) : result (list RetrievedPassage) :=
  match embed [question] with
  | Err e => Err e
  | Ok [] => Err EmbeddingUnavailable
  | Ok (qv :: _) =>
      let candidates := search distance qv (k * 2) documentIdFilter idx in
      let scored :=
        (fun c => {| source := fst c;
                     relevance := score_of_distance (snd c) |}) <$> candidates in
      let evidence :=
        List.filter (fun p => Qle_bool similarity_threshold (relevance p)) scored in
      Ok (take k (merge_sort ranked (deduplicate evidence)))
  end.

End Retriever.

(** ** Answer synthesizer (section 4.5) *)

Inductive Speaker : Type := asker | answerer.

Record ConversationTurn : Type := mkConversationTurn {
  turn_role : Speaker;
  turn_text : text;
  turn_time : Z
}.

Record Answer : Type := mkAnswer {
  answer_text : text;
  answer_confidence : Q;
  answer_evidence : list RetrievedPassage;
  answer_tokens : nat;
  answer_follow_ups : list text
}.

(** The generation request. *)
Record Prompt : Type := mkPrompt {
  system_instruction : text;
  prompt_history : list ConversationTurn;
  prompt_passages : list (nat * text);
  prompt_question : text
}.

(** What a well-formed response of the model parses into. *)
Record Parsed : Type := mkParsed {
  parsed_text : text;
  parsed_certainty : option Q;
  parsed_incomplete : bool;
  parsed_follow_ups : list text
}.

Definition history_bound : nat := 6.
Definition no_evidence_ceiling : Q := (3 # 10)%Q.

Definition instruction : text :=
  list_ascii_of_string
    "Answer only from the supplied passages. If they do not contain the answer, say that the evidence is insufficient.".

Definition mean (xs : list Q) : Q :=
  match xs with
  | [] => 0%Q
  | _ => (fold_right Qplus 0 xs / inject_Z (Z.of_nat (length xs)))%Q
  end.

Definition clamp01 (x : Q) : Q := Qmax 0 (Qmin 1 x).

Definition build_prompt (question : text) (passages : list RetrievedPassage)
    (history : list ConversationTurn) : Prompt :=
  {| system_instruction := instruction;
     prompt_history := drop (length history - history_bound) history;
     prompt_passages :=
       (fun p => (chunk_locator (entry_chunk (source p)),
                  chunk_text (entry_chunk (source p)))) <$> passages;
     prompt_question := question |}.

Section Synthesizer.

(** The generation provider at its [n]-th call for a request: the raw
    response and the tokens it used, or a transient failure. *)
Variable generate : nat -> Prompt -> result (text * nat).

(** The parser of the response; [None] on malformed output. *)
Variable parse : text -> option Parsed.

(** How the certainty reported by the model and the mean relevance of
    the passages combine into a confidence. *)
Variable combine : option Q -> Q -> Q.

(** Follow-up questions were explicitly requested. *)
Variable follow_ups_requested : bool.

(** One call, retried at most once. *)
Definition generate_with_retry (p : Prompt) : result (text * nat) :=
  match generate 0 p with
  | Ok r => Ok r
  | Err _ =>
      match generate 1 p with
      | Ok r => Ok r
      | Err _ => Err GenerationUnavailable
      end
  end.

(** Modelled from the spec: [answer(question, passages,
    conversationHistory)] of section 4.5, the Answer Synthesizer, whose
    implementation is not among the sources. The text of the answer is
    the text of the model's response; malformed output falls back to
    the raw text with confidence 0 and no follow-ups. With no passages
    the confidence is capped at the ceiling whatever the model
    reports. *)
Definition answer (question : text) (passages : list RetrievedPassage)
    (history : list ConversationTurn) : result Answer :=
  match generate_with_retry (build_prompt question passages history) with
  | Err e => Err e
  | Ok (raw, tokens) =>
      let '(body, conf, follow) :=
        match parse raw with
        | None => (raw, 0%Q, [])
        | Some r =>
            (parsed_text r,
             clamp01 (combine (parsed_certainty r) (mean (relevance <$> passages))),
             if parsed_incomplete r || follow_ups_requested
             then take 3 (parsed_follow_ups r) else [])
        end in
      Ok {| answer_text := body;
            answer_confidence :=
              match passages with
              | [] => Qmin no_evidence_ceiling conf
              | _ => conf
              end;
            answer_evidence := passages;
            answer_tokens := tokens;
            answer_follow_ups := follow |}
  end.

End Synthesizer.

(** ** Query path (section 6) *)

Definition Tag_name (t : Tag) : string :=
  match t with
  | narrative => "narrative"
  | table => "table"
  | slide_note => "slide_note"
  end.

(** A retrieved passage on the wire, with the field names of the
    client's [Passage]. *)
Definition encode_passage (p : RetrievedPassage) : Json :=
  JObject
    [ ("content", JString (string_of_list_ascii (chunk_text (entry_chunk (source p)))));
      ("page_number", JNumber (inject_Z (Z.of_nat (chunk_locator (entry_chunk (source p))))));
      ("chunk_type", JString (Tag_name (chunk_tag (entry_chunk (source p)))));
      ("score", JNumber (relevance p)) ].

(** The response body of a question, with the field names of the
    client's [QuestionResponse]. *)
Definition encode_response (a : Answer) : Json :=
  JObject
    [ ("answer", JString (string_of_list_ascii (answer_text a)));
      ("passages", JArray (encode_passage <$> answer_evidence a));
      ("confidence", JNumber (answer_confidence a));
      ("tokens_used", JNumber (inject_Z (Z.of_nat (answer_tokens a))));
      ("follow_up_questions",
       JArray ((fun q => JString (string_of_list_ascii q)) <$> answer_follow_ups a)) ].

(** The client's reading of a passage and of an answer. *)
Definition passage_view (p : RetrievedPassage) : Passage :=
  {| content := string_of_list_ascii (chunk_text (entry_chunk (source p)));
     page_number := inject_Z (Z.of_nat (chunk_locator (entry_chunk (source p))));
     chunk_type := Tag_name (chunk_tag (entry_chunk (source p)));
     score := relevance p |}.

Definition response_view (a : Answer) : QuestionResponse :=
  mkQuestionResponse
    (string_of_list_ascii (answer_text a))
    (passage_view <$> answer_evidence a)
    (answer_confidence a)
    (inject_Z (Z.of_nat (answer_tokens a)))
    (string_of_list_ascii <$> answer_follow_ups a).

Section QueryPath.

Variable distance : vector -> vector -> Q.
Variable embed : list text -> result (list vector).
Variable generate : nat -> Prompt -> result (text * nat).
Variable parse : text -> option Parsed.
Variable combine : option Q -> Q -> Q.
Variable follow_ups_requested : bool.

(** Modelled from the spec: the query path of section 6, "retrieve +
    answer composed into {answer, confidence, passages[],
    followUpQuestions[], tokensUsed}", whose implementation is not
    among the sources. A failure of either stage is returned as it
    is; a success is the response body. *)
Definition query (question : text) (documentIdFilter : option DocumentId)
    (k : nat) (history : list ConversationTurn) (idx : Index) : result Json :=
  match retrieve distance embed question documentIdFilter k idx with
  | Err e => Err e
  | Ok passages =>
      match answer generate parse combine follow_ups_requested
              question passages history with
      | Err e => Err e
      | Ok a => Ok (encode_response a)
      end
  end.

End QueryPath.

(** ** Ingestion orchestrator (section 4.6) *)

Section Orchestrator.

(** The three stages; the first two can fail as a whole. *)
Variable chunker : text -> list Boundary -> result (list Chunk).
Variable embed : list text -> result (list vector).

(** Modelled from the spec: [ingest(documentId, extractedText,
    structuralUnits)] of section 4.6, the Ingestion Orchestrator, whose
    implementation is not among the sources. The stages run in
    sequence; when one fails, the chunks of the document are deleted
    from the index before the error is returned. *)
Definition ingest (d : DocumentId) (t : text) (bs : list Boundary)
  : IndexOp nat := fun idx =>
  match chunker t bs with
  | Err e => (fst (delete d idx), Err e)
  | Ok cs =>
      match embed (chunk_text <$> cs) with
      | Err e => (fst (delete d idx), Err e)
      | Ok vs =>
          match upsert d (zip cs vs) idx with
          | (idx', Err e) => (fst (delete d idx'), Err e)
          | (idx', Ok _) => (idx', Ok (length cs))
          end
      end
  end.

(** [remove(documentId)] delegates to the index. *)
Definition remove (d : DocumentId) : IndexOp unit := delete d.

End Orchestrator.

End Core.

(** ** Sample data *)

Module Sample.

Import Core.
Local Open Scope nat_scope.
Local Open Scope list_scope.

Definition cfg : Config := {| target_size := 10; max_size := 12; overlap := 3 |}.

Definition fox : text :=
  list_ascii_of_string "the quick brown fox jumps over the lazy dog and runs".

(** A metric on vectors that computes: the sum of the distances of the
    coordinates. *)
Definition distance (a b : vector) : Q :=
  fold_right Qplus 0%Q (zip_with (fun x y => Qabs (x - y)) a b).

(** An embedding client that puts every text at the origin. *)
Definition embed (ts : list text) : result (list vector) :=
  Ok ((fun _ => [0%Q]) <$> ts).

(** An embedding client whose second vector has one coordinate too
    many. *)
Definition embed_uneven (ts : list text) : result (list vector) :=
  Ok (imap (fun i _ => if i =? 1 then [0%Q; 0%Q] else [0%Q]) ts).

Definition chunker (t : text) (bs : list Boundary) : result (list Chunk) :=
  Ok (chunk cfg t bs).

Definition entry (d : DocumentId) (n : nat) (x : Q) : Entry :=
  {| entry_document := d;
     entry_chunk := {| chunk_text := list_ascii_of_string "logo clear space";
                       chunk_tag := narrative; chunk_locator := 1;
                       chunk_seq := n; chunk_overlap := 0 |};
     entry_vector := [x] |}.

(** Scores 0.9 twice in [A], 0.9 in [B], 0.8 next to a chunk of [A],
    0.2 below the threshold. *)
Definition index : Index :=
  {| dimension := 1;
     entries := [ entry "B" 4 (2 # 10); entry "A" 5 (2 # 10);
                  entry "A" 1 (2 # 10); entry "A" 6 (4 # 10);
                  entry "C" 0 (16 # 10) ] |}.

(** A generation model that answers with a colour code whatever it is
    given, and is sure of it. *)
Definition fabricated : text :=
  list_ascii_of_string "The primary brand color is #FF0000.".

Definition generate_fabricated (attempt : nat) (p : Prompt) : result (text * nat) :=
  Ok (fabricated, 12).

(** A parser that takes the whole response as the answer, with full
    certainty. *)
Definition parse_plain (raw : text) : option Parsed :=
  Some {| parsed_text := raw; parsed_certainty := Some 1%Q;
          parsed_incomplete := false; parsed_follow_ups := [] |}.

(** The confidence is the certainty of the model when it reports one,
    the mean relevance otherwise. *)
Definition combine_certainty (certainty : option Q) (mean_relevance : Q) : Q :=
  default mean_relevance certainty.

Definition ids (ps : list RetrievedPassage) : list (DocumentId * nat) :=
  (fun p => entry_id (source p)) <$> ps.

End Sample.

(** ** Facts on [maskApiKey] *)

Lemma string_length_app (s1 s2 : string) :
  String.length (s1 ++ s2) = (String.length s1 + String.length s2)%nat.
Proof.
  induction s1 as [|c s1 IH]; simpl; [reflexivity | now rewrite IH].
Qed.

Lemma substring_all (s : string) : String.substring 0 (String.length s) s = s.
Proof.
  induction s as [|c s IH]; simpl; [reflexivity | now rewrite IH].
Qed.

Lemma substring_split (s : string) (n : nat) :
  (n <= String.length s)%nat ->
  s = String.substring 0 n s ++ String.substring n (String.length s - n) s.
Proof.
  revert n; induction s as [|c s IH]; intros n Hn; simpl in *.
  - destruct n; [reflexivity | lia].
  - destruct n as [|n]; simpl.
    + now rewrite substring_all.
    + change (String c s = String c (String.substring 0 n s ++
                String.substring n (String.length s - n) s)).
      f_equal. apply IH. lia.
Qed.

Lemma substring_length (s : string) (n m : nat) :
  (n + m <= String.length s)%nat ->
  String.length (String.substring n m s) = m.
Proof.
  revert n m; induction s as [|c s IH]; intros n m H; simpl in *.
  - destruct n, m; simpl; lia.
  - destruct n as [|n].
    + destruct m as [|m]; simpl; [reflexivity|]. f_equal.
      apply (IH 0%nat m). lia.
    + apply IH. lia.
Qed.

Lemma substring_from_spec (s : string) (k : nat) :
  (k <= String.length s)%nat ->
  JS.substring_from s (Z.of_nat k) =
  String.substring k (String.length s - k) s.
Proof.
  intros Hk. unfold JS.substring_from, JS.substring, JS.clamp.
  set (len := Z.of_nat (String.length s)).
  assert (Hlen : Z.of_nat k <= len) by (unfold len; lia).
  replace (Z.min (Z.max (Z.of_nat k) 0) len) with (Z.of_nat k) by lia.
  replace (Z.min (Z.max len 0) len) with len by lia.
  replace (Z.min (Z.of_nat k) len) with (Z.of_nat k) by lia.
  replace (Z.max (Z.of_nat k) len) with len by lia.
  rewrite Nat2Z.id. f_equal. unfold len. lia.
Qed.

Lemma substring_prefix_spec (s : string) (k : nat) :
  (k <= String.length s)%nat ->
  JS.substring s 0 (Z.of_nat k) = String.substring 0 k s.
Proof.
  intros Hk. unfold JS.substring, JS.clamp.
  set (len := Z.of_nat (String.length s)).
  assert (Hlen : Z.of_nat k <= len) by (unfold len; lia).
  replace (Z.min (Z.max 0 0) len) with 0 by lia.
  replace (Z.min (Z.max (Z.of_nat k) 0) len) with (Z.of_nat k) by lia.
  replace (Z.min 0 (Z.of_nat k)) with 0 by lia.
  replace (Z.max 0 (Z.of_nat k)) with (Z.of_nat k) by lia.
  simpl. f_equal. lia.
Qed.

Lemma substring_add (s : string) (n a b : nat) :
  (n + a + b <= String.length s)%nat ->
  String.substring n (a + b) s =
  String.substring n a s ++ String.substring (n + a) b s.
Proof.
  revert n a b; induction s as [|c s IH]; intros n a b H; simpl in *.
  - assert (n = 0 /\ a = 0 /\ b = 0)%nat as (-> & -> & ->) by lia. reflexivity.
  - destruct n as [|n].
    + destruct a as [|a]; simpl; [reflexivity |].
      change (String c (String.substring 0 (a + b) s) =
              String c (String.substring 0 a s ++ String.substring a b s)).
      f_equal. apply (IH 0%nat a b). lia.
    + simpl. apply IH. lia.
Qed.

Lemma maskApiKey_long (key : string) :
  (8 <= String.length key)%nat ->
  maskApiKey key =
  String.substring 0 3 key ++ "..." ++
  String.substring (String.length key - 4) 4 key.
Proof.
  intros Hlen. unfold maskApiKey.
  destruct (Z.ltb_spec (Z.of_nat (String.length key)) 8); [lia |].
  change 3 with (Z.of_nat 3).
  rewrite (substring_prefix_spec key 3) by lia.
  replace (Z.of_nat (String.length key) - 4)
    with (Z.of_nat (String.length key - 4)) by lia.
  rewrite substring_from_spec by lia.
  do 3 f_equal. lia.
Qed.

(** C8. [maskApiKey] returns a key shorter than 8 characters verbatim; a
    key of 8 characters or more is rendered as its first 3 characters, the
    literal ["..."] and its last 4 characters, 10 characters in all, so 7
    characters of the key are shown. *)
Theorem maskApiKey_spec (key : string) :
  ((String.length key < 8)%nat -> maskApiKey key = key) /\
  ((8 <= String.length key)%nat ->
   exists pre mid suf : string,
     key = pre ++ mid ++ suf /\
     String.length pre = 3%nat /\
     String.length suf = 4%nat /\
     maskApiKey key = pre ++ "..." ++ suf /\
     String.length (maskApiKey key) = 10%nat).
Proof.
  split; intros Hlen.
  - unfold maskApiKey.
    destruct (Z.ltb_spec (Z.of_nat (String.length key)) 8); [reflexivity | lia].
  - rewrite (maskApiKey_long key Hlen).
    set (n := String.length key) in *.
    exists (String.substring 0 3 key),
           (String.substring 3 (n - 7) key),
           (String.substring (n - 4) 4 key).
    assert (Hpre : String.length (String.substring 0 3 key) = 3%nat)
      by (apply substring_length; fold n; lia).
    assert (Hsuf : String.length (String.substring (n - 4) 4 key) = 4%nat)
      by (apply substring_length; fold n; lia).
    repeat split; try assumption.
    + rewrite (substring_split key 3) at 1 by (fold n; lia). fold n.
      f_equal.
      replace (n - 3)%nat with ((n - 7) + 4)%nat by lia.
      rewrite substring_add by (fold n; lia).
      do 2 f_equal. lia.
    + rewrite !string_length_app, Hpre, Hsuf. reflexivity.
Qed.

Lemma maskApiKey_spec_witness :
  maskApiKey "sk-12" = "sk-12" /\
  exists pre mid suf : string,
    "sk-proj-abcdWXYZ" = pre ++ mid ++ suf /\
    String.length pre = 3%nat /\
    String.length suf = 4%nat /\
    maskApiKey "sk-proj-abcdWXYZ" = pre ++ "..." ++ suf /\
    String.length (maskApiKey "sk-proj-abcdWXYZ") = 10%nat.
Proof.
  split.
  - apply (proj1 (maskApiKey_spec "sk-12")). simpl. lia.
  - apply (proj2 (maskApiKey_spec "sk-proj-abcdWXYZ")). simpl. lia.
Defined.

Example maskApiKey_long_key : maskApiKey "sk-proj-abcdWXYZ" = "sk-...WXYZ".
Proof. reflexivity. Qed.

Example maskApiKey_seven : maskApiKey "sk-1234" = "sk-1234".
Proof. reflexivity. Qed.

(** ** Facts on [formatFileSize] *)

Lemma size_loop_unfold (size : number) (i : nat) :
  DocumentList.size_loop size i =
  if DocumentList.loop_cond size i
  then DocumentList.size_loop (DocumentList.shrink size) (S i)
  else (size, i).
Proof.
  funelim (DocumentList.size_loop size i); rewrite Hc; reflexivity.
Qed.

Lemma loop_cond_true (size : number) (i : nat) :
  DocumentList.loop_cond size i = true <-> (1024 <= size)%Q /\ (i < 3)%nat.
Proof.
  unfold DocumentList.loop_cond. rewrite andb_true_iff, Qle_bool_iff, Z.ltb_lt.
  simpl. intuition lia.
Qed.

(** Each iteration moves [unitIndex] one step closer to 3, so the loop
    runs [j] times for some [j] that fits below the bound. *)
Lemma size_loop_iter (n : nat) :
  forall (size : number) (i : nat),
    (i + n = 3)%nat ->
    exists j : nat,
      (j <= n)%nat /\
      DocumentList.size_loop size i = (Nat.iter j DocumentList.shrink size, (i + j)%nat).
Proof.
  induction n as [|n IH]; intros size i Hi; rewrite size_loop_unfold.
  - destruct (DocumentList.loop_cond size i) eqn:Hc.
    + apply loop_cond_true in Hc. lia.
    + exists 0%nat. split; [lia |]. simpl. f_equal. lia.
  - destruct (DocumentList.loop_cond size i) eqn:Hc.
    + destruct (IH (DocumentList.shrink size) (S i)) as (j & Hj & Hloop); [lia |].
      exists (S j). split; [lia |].
      rewrite Hloop, Nat.iter_succ_r. f_equal. lia.
    + exists 0%nat. split; [lia |]. simpl. f_equal. lia.
Qed.

Lemma shrink_lower_bound (n : nat) (size : number) :
  (inject_Z (1024 ^ Z.of_nat (S n)) <= size)%Q ->
  (1024 <= size)%Q /\ (inject_Z (1024 ^ Z.of_nat n) <= DocumentList.shrink size)%Q.
Proof.
  intros H.
  assert (Hpos : 1 <= 1024 ^ Z.of_nat n) by (apply Z.pow_le_mono_r with (b := 0%Z); lia).
  rewrite Nat2Z.inj_succ, Z.pow_succ_r in H by lia.
  split.
  - eapply Qle_trans; [| exact H].
    change 1024%Q with (inject_Z 1024). rewrite <- Zle_Qle. nia.
  - unfold DocumentList.shrink. apply Qle_shift_div_l; [reflexivity |].
    eapply Qle_trans; [| exact H].
    change 1024%Q with (inject_Z 1024).
    rewrite <- inject_Z_mult, <- Zle_Qle. lia.
Qed.

(** From [1024 ^ n] upwards the loop uses all the [n] iterations that are
    left to it. *)
Lemma size_loop_large (n : nat) :
  forall (size : number) (i : nat),
    (i + n = 3)%nat ->
    (inject_Z (1024 ^ Z.of_nat n) <= size)%Q ->
    DocumentList.size_loop size i = (Nat.iter n DocumentList.shrink size, 3%nat).
Proof.
  induction n as [|n IH]; intros size i Hi Hsize; rewrite size_loop_unfold.
  - destruct (DocumentList.loop_cond size i) eqn:Hc.
    + apply loop_cond_true in Hc. lia.
    + simpl. f_equal. lia.
  - apply shrink_lower_bound in Hsize as [H1 H2].
    assert (Hc : DocumentList.loop_cond size i = true)
      by (apply loop_cond_true; split; [exact H1 | lia]).
    rewrite Hc, (IH (DocumentList.shrink size) (S i)) by (lia || assumption).
    now rewrite Nat.iter_succ_r.
Qed.

(** C9. [formatFileSize] returns for every byte count: its loop runs at
    most 3 times, the index it stops at selects one of the units B, KB, MB
    and GB, the result is the size after that many divisions by 1024
    printed with one digit, a space and that unit; from a terabyte upwards
    the unit is GB. *)
Theorem formatFileSize_units (toString : Q -> string) (bytes : number) :
  exists (i : nat) (u : string),
    (i <= 3)%nat /\
    DocumentList.units !! i = Some u /\
    u ∈ ["B"; "KB"; "MB"; "GB"] /\
    DocumentList.size_loop bytes 0 = (Nat.iter i DocumentList.shrink bytes, i) /\
    DocumentList.formatFileSize toString bytes =
      Number.toFixed toString (Nat.iter i DocumentList.shrink bytes) 1 ++ " " ++ u /\
    ((inject_Z (1024 ^ 4) <= bytes)%Q -> i = 3%nat /\ u = "GB").
Proof.
  destruct (size_loop_iter 3 bytes 0 eq_refl) as (i & Hi & Hloop).
  simpl in Hloop.
  assert (Hu : exists u, DocumentList.units !! i = Some u).
  { apply lookup_lt_is_Some_2. simpl. lia. }
  destruct Hu as [u Hu].
  exists i, u. repeat split.
  - exact Hi.
  - exact Hu.
  - apply list_elem_of_lookup. exists i. exact Hu.
  - exact Hloop.
  - unfold DocumentList.formatFileSize, DocumentList.unit_at.
    rewrite Hloop, Hu. reflexivity.
  - pose proof (size_loop_large 3 bytes 0 eq_refl) as Hl.
    rewrite Hloop in Hl. 
    assert (Hb : (inject_Z (1024 ^ Z.of_nat 3) <= bytes)%Q).
    { eapply Qle_trans; [| exact H]. rewrite <- Zle_Qle. simpl. lia. }
    specialize (Hl Hb). congruence.
  - pose proof (size_loop_large 3 bytes 0 eq_refl) as Hl.
    rewrite Hloop in Hl.
    assert (Hb : (inject_Z (1024 ^ Z.of_nat 3) <= bytes)%Q).
    { eapply Qle_trans; [| exact H]. rewrite <- Zle_Qle. simpl. lia. }
    specialize (Hl Hb). 
    assert (i = 3%nat) as -> by congruence.
    simpl in Hu. congruence.
Qed.

Lemma formatFileSize_units_witness :
  (inject_Z (1024 ^ 4) <= inject_Z (5 * 1024 ^ 4))%Q /\
  exists (i : nat) (u : string),
    (i <= 3)%nat /\
    DocumentList.units !! i = Some u /\
    u ∈ ["B"; "KB"; "MB"; "GB"] /\
    DocumentList.size_loop (inject_Z (5 * 1024 ^ 4)) 0 =
      (Nat.iter i DocumentList.shrink (inject_Z (5 * 1024 ^ 4)), i) /\
    DocumentList.formatFileSize (fun _ => "1e+21") (inject_Z (5 * 1024 ^ 4)) =
      Number.toFixed (fun _ => "1e+21")
        (Nat.iter i DocumentList.shrink (inject_Z (5 * 1024 ^ 4))) 1 ++ " " ++ u /\
    ((inject_Z (1024 ^ 4) <= inject_Z (5 * 1024 ^ 4))%Q ->
     i = 3%nat /\ u = "GB").
Proof.
  split.
  - rewrite <- Zle_Qle. lia.
  - apply (formatFileSize_units (fun _ => "1e+21") (inject_Z (5 * 1024 ^ 4))).
Defined.

Example formatFileSize_kb :
  DocumentList.formatFileSize (fun _ => "") 1536%Q = "1.5 KB".
Proof. vm_compute. reflexivity. Qed.

Example formatFileSize_tb :
  DocumentList.formatFileSize (fun _ => "") (inject_Z (5 * 1024 ^ 4)) = "5120.0 GB".
Proof. vm_compute. reflexivity. Qed.

(** ** Facts on [QueryInterface.handleSubmit] *)

Lemma slice_from_negative {A : Type} (arr : list A) (n : nat) :
  JS.slice_from arr (- Z.of_nat (S n)) = drop (List.length arr - S n) arr.
Proof.
  unfold JS.slice_from.
  destruct (Z.ltb_spec (- Z.of_nat (S n)) 0); [| lia].
  f_equal. lia.
Qed.

(** C1. When [handleSubmit] sends a question, the conversation of the
    current render splits into the older turns and the recent ones, the
    recent ones being the last 6 turns (all of them when there are fewer),
    and the history of the request is exactly the recent turns, each
    reduced to its role and content; no older turn is sent. *)
Theorem handleSubmit_history (now : Z) (st : QueryInterface.State) :
  JS.trim (QueryInterface.question st) <> "" ->
  exists (st' : QueryInterface.State) (body : QueryInterface.AskBody)
         (older recent : list ConversationMessage),
    QueryInterface.handleSubmit_begin now st = QueryInterface.submitted st' body /\
    QueryInterface.conversation st = (older ++ recent)%list /\
    List.length recent = Nat.min 6 (List.length (QueryInterface.conversation st)) /\
    QueryInterface.conversation_history body = QueryInterface.to_history <$> recent /\
    (List.length (QueryInterface.conversation_history body) <= 6)%nat.
Proof.
  intros Hq. unfold QueryInterface.handleSubmit_begin.
  destruct (String.eqb_spec (JS.trim (QueryInterface.question st)) "") as [E | _];
    [contradiction |].
  set (conv := QueryInterface.conversation st).
  eexists _, _, (take (List.length conv - 6) conv), (drop (List.length conv - 6) conv).
  split; [reflexivity |].
  cbn [QueryInterface.conversation_history QueryInterface.conversation].
  unfold QueryInterface.conversationHistory.
  change (-6) with (- Z.of_nat 6). rewrite slice_from_negative. fold conv.
  repeat split.
  - symmetry. apply take_drop.
  - rewrite length_drop. lia.
  - rewrite length_fmap, length_drop. lia.
Qed.

Lemma handleSubmit_history_witness :
  exists (st' : QueryInterface.State) (body : QueryInterface.AskBody)
         (older recent : list ConversationMessage),
    QueryInterface.handleSubmit_begin 0
      (QueryInterface.mkState "What is our primary brand color?" "all" false [] None)
      = QueryInterface.submitted st' body /\
    [] = (older ++ recent)%list /\
    List.length recent = Nat.min 6 0 /\
    QueryInterface.conversation_history body = QueryInterface.to_history <$> recent /\
    (List.length (QueryInterface.conversation_history body) <= 6)%nat.
Proof.
  apply (handleSubmit_history 0
           (QueryInterface.mkState "What is our primary brand color?" "all" false [] None)).
  vm_compute. discriminate.
Defined.

(** A conversation of eight turns: the two oldest are not sent. *)
Example conversationHistory_eight :
  let turn (n : Z) := mkConversationMessage user (pretty n) n None None in
  QueryInterface.conversationHistory (turn <$> [1; 2; 3; 4; 5; 6; 7; 8]) =
  QueryInterface.to_history <$> (turn <$> [3; 4; 5; 6; 7; 8]).
Proof. reflexivity. Qed.

(** ** Facts on [ApiClient.logout] *)

(** C10. [logout] resets the token to [null], removes the [auth_token]
    entry of the local storage and the [Authorization] default header, and
    nothing else: the API key field, the whole session storage (with its
    [openai_api_key] entry) and the [X-API-Key] header are as before, and
    the other local storage entries and headers are kept. *)
Theorem logout_keeps_api_key (c : ApiClient.t) :
  ApiClient.token (ApiClient.logout c) = None /\
  ApiClient.localStorage (ApiClient.logout c) !! "auth_token" = None /\
  ApiClient.headers_common (ApiClient.logout c) !! "Authorization" = None /\
  ApiClient.isAuthenticated (ApiClient.logout c) = false /\
  ApiClient.apiKey (ApiClient.logout c) = ApiClient.apiKey c /\
  ApiClient.getApiKey (ApiClient.logout c) = ApiClient.getApiKey c /\
  ApiClient.sessionStorage (ApiClient.logout c) = ApiClient.sessionStorage c /\
  ApiClient.sessionStorage (ApiClient.logout c) !! "openai_api_key" =
    ApiClient.sessionStorage c !! "openai_api_key" /\
  ApiClient.headers_common (ApiClient.logout c) !! "X-API-Key" =
    ApiClient.headers_common c !! "X-API-Key" /\
  ApiClient.localStorage (ApiClient.logout c) =
    delete "auth_token" (ApiClient.localStorage c) /\
  ApiClient.headers_common (ApiClient.logout c) =
    delete "Authorization" (ApiClient.headers_common c).
Proof.
  unfold ApiClient.logout, ApiClient.isAuthenticated, ApiClient.getApiKey; simpl.
  repeat split.
  - apply lookup_delete_eq.
  - apply lookup_delete_eq.
  - apply lookup_delete_ne. discriminate.
Qed.

(** A session with a token and a key: after [logout] a request leaves
    without [Authorization] and still with [X-API-Key]. *)
Example logout_outgoing_headers :
  let c := ApiClient.setApiKey (Some "sk-test")
             (ApiClient.setAuthToken "jwt"
                (ApiClient.constructor ∅ ∅ ∅)) in
  ApiClient.outgoing_headers (ApiClient.logout c) ∅ !! "Authorization" = None /\
  ApiClient.outgoing_headers (ApiClient.logout c) ∅ !! "X-API-Key" = Some "sk-test" /\
  ApiClient.sessionStorage (ApiClient.logout c) !! "openai_api_key" = Some "sk-test".
Proof. vm_compute. repeat split. Qed.

(** * Facts on the retrieval core *)

Section CoreFacts.

Import Core.
Local Open Scope nat_scope.
Local Open Scope list_scope.

(** ** Chunker *)

Lemma reconstruct_app (cs1 cs2 : list Chunk) :
  reconstruct (cs1 ++ cs2) = reconstruct cs1 ++ reconstruct cs2.
Proof. unfold reconstruct. now rewrite fmap_app, concat_app. Qed.

Lemma reconstruct_singleton (c : Chunk) :
  reconstruct [c] = drop (chunk_overlap c) (chunk_text c).
Proof. unfold reconstruct. simpl. apply app_nil_r. Qed.

Lemma emit_fresh (cfg : Config) (st : ChunkerState) :
  fresh (buffer (emit cfg st)) = [].
Proof.
  unfold emit. destruct (fresh (buffer st)) eqn:E; [exact E | reflexivity].
Qed.

Lemma emit_covered (cfg : Config) (st : ChunkerState) :
  covered (emit cfg st) = covered st.
Proof.
  unfold emit, covered. destruct (fresh (buffer st)) eqn:E; [now rewrite E |].
  cbn [emitted buffer fresh]. rewrite reconstruct_app, reconstruct_singleton.
  cbn [chunk_overlap chunk_text]. rewrite drop_app_length, app_nil_r.
  reflexivity.
Qed.

Lemma push_piece_covered (cfg : Config) (u : Unit) (st : ChunkerState) (p : text) :
  covered (push_piece cfg u st p) = covered st ++ p.
Proof.
  unfold push_piece.
  set (st1 := if crosses_boundary (buffer st) u then emit cfg st else st).
  assert (H1 : covered st1 = covered st).
  { unfold st1. destruct (crosses_boundary _ _); [apply emit_covered | reflexivity]. }
  match goal with |- covered (if _ then emit cfg ?s else ?s) = _ =>
    assert (H2 : covered s = covered st1 ++ p)
      by (unfold covered; cbn [emitted buffer fresh]; now rewrite app_assoc)
  end.
  destruct (_ <=? _); [rewrite emit_covered |]; now rewrite H2, H1.
Qed.

Lemma push_pieces_covered (cfg : Config) (u : Unit) (ps : list text) :
  forall st : ChunkerState,
    covered (fold_left (push_piece cfg u) ps st) = covered st ++ concat ps.
Proof.
  induction ps as [|p ps IH]; intros st; simpl.
  - now rewrite app_nil_r.
  - now rewrite IH, push_piece_covered, <- app_assoc.
Qed.

Lemma force_split_concat (limit : nat) (t : text) :
  concat (force_split limit t) = t.
Proof.
  funelim (force_split limit t); simpl.
  - apply app_nil_r.
  - rewrite H. apply take_drop.
Qed.

Lemma push_table_covered (cfg : Config) (u : Unit) (st : ChunkerState) :
  covered (push_table cfg u st) = covered st ++ unit_text u.
Proof.
  unfold push_table. destruct (unit_text u) as [|a t] eqn:E.
  - now rewrite app_nil_r.
  - unfold covered at 1. cbn [emitted buffer fresh].
    rewrite reconstruct_app, reconstruct_singleton.
    cbn [chunk_overlap chunk_text]. rewrite drop_0, app_nil_r.
    rewrite <- (emit_covered cfg st). unfold covered.
    now rewrite emit_fresh, app_nil_r.
Qed.

Lemma push_unit_covered (cfg : Config) (st : ChunkerState) (u : Unit) :
  covered (push_unit cfg st u) = covered st ++ unit_text u.
Proof.
  unfold push_unit.
  destruct (unit_tag u);
    try (rewrite push_pieces_covered, force_split_concat; reflexivity).
  apply push_table_covered.
Qed.

Lemma push_units_covered (cfg : Config) (us : list Unit) :
  forall st : ChunkerState,
    covered (fold_left (push_unit cfg) us st) =
    covered st ++ concat (unit_text <$> us).
Proof.
  induction us as [|u us IH]; intros st; simpl.
  - now rewrite app_nil_r.
  - now rewrite IH, push_unit_covered, <- app_assoc.
Qed.

Lemma units_of_concat (bs : list Boundary) :
  forall (locator : nat) (t : text),
    concat (unit_text <$> units_of locator t bs) = t.
Proof.
  induction bs as [|b bs IH]; intros locator t; simpl.
  - destruct t; simpl; [reflexivity | now rewrite app_nil_r].
  - rewrite IH. apply take_drop.
Qed.

Lemma chunk_units_reconstruct (cfg : Config) (us : list Unit) :
  reconstruct (chunk_units cfg us) = concat (unit_text <$> us).
Proof.
  unfold chunk_units.
  set (st := fold_left (push_unit cfg) us initial).
  transitivity (covered (emit cfg st)).
  - unfold covered. now rewrite emit_fresh, app_nil_r.
  - rewrite emit_covered. unfold st. now rewrite push_units_covered.
Qed.

(** *** The overlaps are shared with the predecessor *)

Lemma last_text_snoc (prev : text) (cs : list Chunk) (c : Chunk) :
  last_text prev (cs ++ [c]) = chunk_text c.
Proof. unfold last_text. now rewrite last_snoc. Qed.

Lemma last_text_cons (prev : text) (c : Chunk) (cs : list Chunk) :
  last_text prev (c :: cs) = last_text (chunk_text c) cs.
Proof.
  unfold last_text. rewrite last_cons.
  destruct (last cs); reflexivity.
Qed.

Lemma overlaps_ok_snoc (cs : list Chunk) (c : Chunk) :
  forall prev : text,
    overlaps_ok prev cs ->
    take (chunk_overlap c) (chunk_text c) `suffix_of` last_text prev cs ->
    chunk_overlap c <= length (chunk_text c) ->
    overlaps_ok prev (cs ++ [c]).
Proof.
  induction cs as [|c' cs IH]; intros prev Hok Hsuf Hle; simpl in *.
  - auto.
  - destruct Hok as (H1 & H2 & H3). repeat split; try assumption.
    apply IH; [assumption | | assumption].
    now rewrite last_text_cons in Hsuf.
Qed.

Lemma trailing_suffix (n : nat) (t : text) : trailing n t `suffix_of` t.
Proof. apply suffix_drop. Qed.

Lemma seq_snoc_index (cs : list Chunk) (c : Chunk) :
  chunk_seq <$> cs = seq 0 (length cs) ->
  chunk_seq c = length cs ->
  chunk_seq <$> (cs ++ [c]) = seq 0 (length (cs ++ [c])).
Proof.
  intros Hcs Hc. rewrite fmap_app, length_app, seq_app, Hcs. simpl.
  now rewrite Hc.
Qed.

Lemma initial_linked : linked initial.
Proof. repeat split. simpl. reflexivity. Qed.

Lemma emit_linked (cfg : Config) (st : ChunkerState) :
  linked st -> linked (emit cfg st).
Proof.
  intros (Hok & Hseed & Hseq). unfold emit.
  destruct (fresh (buffer st)) eqn:E; [now repeat split |].
  unfold linked. cbn [emitted buffer seed]. repeat split.
  - apply overlaps_ok_snoc; cbn [chunk_overlap chunk_text]; [assumption | |].
    + now rewrite take_app_length.
    + rewrite length_app. lia.
  - rewrite last_text_snoc. apply trailing_suffix.
  - now apply seq_snoc_index.
Qed.

Lemma push_piece_linked (cfg : Config) (u : Unit) (st : ChunkerState) (p : text) :
  linked st -> linked (push_piece cfg u st p).
Proof.
  intros H. unfold push_piece.
  set (st1 := if crosses_boundary (buffer st) u then emit cfg st else st).
  assert (H1 : linked st1).
  { unfold st1. destruct (crosses_boundary _ _); [now apply emit_linked | assumption]. }
  match goal with |- linked (if _ then emit cfg ?s else ?s) =>
    assert (H2 : linked s) by exact H1
  end.
  destruct (_ <=? _); [now apply emit_linked | assumption].
Qed.

Lemma push_pieces_linked (cfg : Config) (u : Unit) (ps : list text) :
  forall st : ChunkerState,
    linked st -> linked (fold_left (push_piece cfg u) ps st).
Proof.
  induction ps as [|p ps IH]; intros st H; simpl; [assumption |].
  apply IH. now apply push_piece_linked.
Qed.

Lemma push_table_linked (cfg : Config) (u : Unit) (st : ChunkerState) :
  linked st -> linked (push_table cfg u st).
Proof.
  intros H. unfold push_table. destruct (unit_text u) eqn:E; [assumption |].
  destruct (emit_linked cfg st H) as (Hok & Hseed & Hseq).
  unfold linked. cbn [emitted buffer seed]. repeat split.
  - apply overlaps_ok_snoc; cbn [chunk_overlap chunk_text]; [assumption | |].
    + rewrite take_0. apply suffix_nil.
    + lia.
  - rewrite last_text_snoc. apply trailing_suffix.
  - now apply seq_snoc_index.
Qed.

Lemma push_unit_linked (cfg : Config) (st : ChunkerState) (u : Unit) :
  linked st -> linked (push_unit cfg st u).
Proof.
  intros H. unfold push_unit.
  destruct (unit_tag u); try (now apply push_pieces_linked).
  now apply push_table_linked.
Qed.

Lemma push_units_linked (cfg : Config) (us : list Unit) :
  forall st : ChunkerState,
    linked st -> linked (fold_left (push_unit cfg) us st).
Proof.
  induction us as [|u us IH]; intros st H; simpl; [assumption |].
  apply IH. now apply push_unit_linked.
Qed.

(** C5. The chunks of a document cover its extracted text: they come
    numbered in sequence order, each one starts with the overlap it
    shares with the end of its predecessor (none for the first), and
    once these overlaps are removed the chunks concatenate to the text,
    for every text, series of structural boundaries and configuration. *)
Theorem chunk_covers_text (cfg : Config) (t : text) (bs : list Boundary) :
  reconstruct (chunk cfg t bs) = t /\
  overlaps_ok [] (chunk cfg t bs) /\
  chunk_seq <$> chunk cfg t bs = seq 0 (length (chunk cfg t bs)).
Proof.
  split.
  - unfold chunk. rewrite chunk_units_reconstruct. apply units_of_concat.
  - unfold chunk, chunk_units.
    destruct (emit_linked cfg (fold_left (push_unit cfg) (units_of 0 t bs) initial))
      as (Hok & _ & Hseq).
    + apply push_units_linked, initial_linked.
    + split; assumption.
Qed.

(** ** Vector index *)

Lemma filter_owned_after_delete (d : DocumentId) (es : list Entry) :
  List.filter (owned_by d) (List.filter (fun e => negb (owned_by d e)) es) = [].
Proof.
  induction es as [|e es IH]; simpl; [reflexivity |].
  destruct (owned_by d e) eqn:E; simpl; [assumption |].
  now rewrite E.
Qed.

Lemma filter_none_owned (d : DocumentId) (es : list Entry) :
  List.filter (owned_by d) es = [] ->
  List.filter (fun e => negb (owned_by d e)) es = es.
Proof.
  induction es as [|e es IH]; simpl; [reflexivity |].
  destruct (owned_by d e); simpl; [discriminate |].
  intros H. now rewrite IH.
Qed.

Lemma filter_idempotent {A : Type} (f : A -> bool) (l : list A) :
  List.filter f (List.filter f l) = List.filter f l.
Proof.
  induction l as [|x l IH]; simpl; [reflexivity |].
  destruct (f x) eqn:E; simpl; [rewrite E; now f_equal | assumption].
Qed.

Lemma delete_chunks_of (d : DocumentId) (idx : Index) :
  chunks_of d (fst (delete d idx)) = [].
Proof. apply filter_owned_after_delete. Qed.

(** C7. After [delete d], a search restricted to [d] returns the empty
    sequence, whatever the query, the bound and the metric; [delete]
    always succeeds; on an index that holds no chunk of [d] it changes
    nothing; and deleting twice is deleting once. *)
Theorem delete_then_search (distance : vector -> vector -> Q)
    (idx : Index) (d : DocumentId) (q : vector) (k : nat) :
  search distance q k (Some d) (fst (delete d idx)) = [] /\
  snd (delete d idx) = Ok tt /\
  (chunks_of d idx = [] -> delete d idx = (idx, Ok tt)) /\
  delete d (fst (delete d idx)) = delete d idx.
Proof.
  repeat split.
  - unfold search. cbn [delete fst entries].
    rewrite filter_owned_after_delete. simpl. apply take_nil.
  - intros H. unfold delete. destruct idx as [dim es]. unfold chunks_of in H.
    cbn [dimension entries] in *. now rewrite filter_none_owned.
  - unfold delete. cbn [fst dimension entries]. now rewrite filter_idempotent.
Qed.

(** ** Ingestion orchestrator *)

(** C4. Whatever the chunker and the embedding client do, when [ingest]
    returns an error the index it leaves holds no chunk owned by the
    document: a failure of the chunker, of the embedding or of the
    upsert, even one that had written some of the chunks, is followed by
    the compensating delete. *)
Theorem ingest_all_or_nothing
    (chunker : text -> list Boundary -> result (list Chunk))
    (embed : list text -> result (list vector))
    (d : DocumentId) (t : text) (bs : list Boundary)
    (idx idx' : Index) (e : Error) :
  ingest chunker embed d t bs idx = (idx', Err e) ->
  chunks_of d idx' = [].
Proof.
  unfold ingest. intros H.
  destruct (chunker t bs) as [cs | e1].
  - destruct (embed (chunk_text <$> cs)) as [vs | e2].
    + destruct (upsert d (zip cs vs) idx) as [idx1 [[] | e3]].
      * discriminate.
      * injection H as <- _. apply delete_chunks_of.
    + injection H as <- _. apply delete_chunks_of.
  - injection H as <- _. apply delete_chunks_of.
Qed.

(** ** Retriever *)

Lemma ranked_iff (p q : RetrievedPassage) :
  ranked p q <->
  (relevance q < relevance p)%Q \/
  ((relevance p == relevance q)%Q /\ passage_seq p <= passage_seq q).
Proof.
  unfold ranked, ranks_before.
  destruct (Qeq_bool (relevance p) (relevance q)) eqn:E.
  - apply Qeq_bool_iff in E. rewrite Is_true_true, Nat.leb_le. split.
    + intros H. right. now split.
    + intros [H | [_ H]]; [| exact H].
      rewrite E in H. now apply Qlt_irrefl in H.
  - assert (Hne : ~ (relevance p == relevance q)%Q).
    { intros H. apply Qeq_bool_iff in H. congruence. }
    rewrite Is_true_true, Qle_bool_iff. split.
    + intros H. left. apply Qle_lteq in H as [H | H]; [exact H |].
      exfalso. apply Hne. now symmetry.
    + intros [H | [H _]]; [now apply Qlt_le_weak | contradiction].
Qed.

#[local] Instance ranked_total : Total ranked.
Proof.
  intros p q. rewrite !ranked_iff.
  destruct (Q_dec (relevance p) (relevance q)) as [[H | H] | H].
  - right. now left.
  - left. now left.
  - destruct (Nat.le_ge_cases (passage_seq p) (passage_seq q)).
    + left. right. now split.
    + right. right. split; [now symmetry | assumption].
Qed.

#[local] Instance ranked_transitive : Transitive ranked.
Proof.
  intros p q r. rewrite !ranked_iff.
  intros [H1 | [H1 L1]] [H2 | [H2 L2]].
  - left. now apply Qlt_trans with (relevance q).
  - left. now rewrite <- H2.
  - left. now rewrite H1.
  - right. split; [now rewrite H1 | lia].
Qed.

Lemma StronglySorted_take {A : Type} (R : relation A) (k : nat) (l : list A) :
  StronglySorted R l -> StronglySorted R (take k l).
Proof.
  intros H. rewrite <- (take_drop k l) in H.
  now apply StronglySorted_app_1_l in H.
Qed.

Lemma StronglySorted_lookup {A : Type} (R : relation A) (l : list A) :
  StronglySorted R l ->
  forall (i j : nat) (x y : A),
    i < j -> l !! i = Some x -> l !! j = Some y -> R x y.
Proof.
  induction 1 as [|a l Hl IH Ha]; intros i j x y Hij Hi Hj.
  - discriminate.
  - destruct j as [|j]; [lia |]. simpl in Hj. destruct i as [|i].
    + injection Hi as <-. rewrite List.Forall_forall in Ha. apply Ha.
      apply list_elem_of_In, list_elem_of_lookup. now exists j.
    + simpl in Hi. apply (IH i j); [lia | assumption | assumption].
Qed.

(** C6. When the question is embedded, [retrieve] returns at most [k]
    passages; a passage never has a higher score than one before it, and
    of two passages with equal scores the one with the earlier sequence
    index comes first. The result is a function of the question, the
    filter, [k] and the index. *)
Theorem retrieve_top_k_ranked
    (distance : vector -> vector -> Q)
    (embed : list text -> result (list vector))
    (question : text) (documentIdFilter : option DocumentId)
    (k : nat) (idx : Index) (qv : vector) (rest : list vector) :
  embed [question] = Ok (qv :: rest) ->
  exists ps : list RetrievedPassage,
    retrieve distance embed question documentIdFilter k idx = Ok ps /\
    length ps <= k /\
    forall (i j : nat) (p q : RetrievedPassage),
      i < j -> ps !! i = Some p -> ps !! j = Some q ->
      (relevance q <= relevance p)%Q /\
      ((relevance p == relevance q)%Q -> passage_seq p <= passage_seq q).
Proof.
  intros Hembed. unfold retrieve. rewrite Hembed.
  eexists. split; [reflexivity |]. split.
  - rewrite length_take. lia.
  - intros i j p q Hij Hp Hq.
    assert (Hr : ranked p q).
    { eapply StronglySorted_lookup; [| exact Hij | exact Hp | exact Hq].
      apply StronglySorted_take, StronglySorted_merge_sort; apply _. }
    apply ranked_iff in Hr as [Hr | [Hr Hs]].
    + split; [now apply Qlt_le_weak |].
      intros E. rewrite E in Hr. now apply Qlt_irrefl in Hr.
    + split; [rewrite Hr; apply Qle_refl | intros _; exact Hs].
Qed.

(** ** Answer synthesizer *)



(** ** The theorems at sample data *)

Example chunk_fox :
  (fun c => (string_of_list_ascii (chunk_text c), chunk_overlap c)) <$>
    chunk Sample.cfg Sample.fox [] =
  [("the quick ", 0); ("ck brown fox ", 3); ("ox jumps over ", 3);
   ("er the lazy ", 3); ("zy dog and runs", 3)].
Proof. vm_compute. reflexivity. Qed.

Example chunk_empty : chunk Sample.cfg [] [] = [].
Proof. vm_compute. reflexivity. Qed.

Lemma delete_then_search_witness :
  chunks_of "D" Sample.index = [] /\
  delete "D" Sample.index = (Sample.index, Ok tt).
Proof.
  split.
  - reflexivity.
  - destruct (delete_then_search Sample.distance Sample.index "D" [0%Q] 5)
      as (_ & _ & Hnoop & _).
    apply Hnoop. reflexivity.
Defined.

Example delete_A_then_search :
  search Sample.distance [0%Q] 5 (Some "A") (fst (delete "A" Sample.index)) = [] /\
  length (search Sample.distance [0%Q] 5 (Some "A") Sample.index) = 3.
Proof. vm_compute. split; reflexivity. Qed.

(** The second chunk is refused by the index after the first one was
    written; the delete removes it again, with the chunk the document had
    before. *)
Lemma ingest_all_or_nothing_witness :
  chunks_of "A"
    (fst (ingest Sample.chunker Sample.embed_uneven "A" Sample.fox []
            Sample.index)) = [].
Proof.
  apply (ingest_all_or_nothing Sample.chunker Sample.embed_uneven
           "A" Sample.fox [] Sample.index _ DimensionMismatch).
  vm_compute. reflexivity.
Defined.

Example upsert_fails_half_way :
  let cs := chunk Sample.cfg Sample.fox [] in
  let vs := imap (fun i _ => if i =? 1 then [0%Q; 0%Q] else [0%Q]) cs in
  snd (upsert "A" (zip cs vs) Sample.index) = Err DimensionMismatch /\
  length (chunks_of "A" (fst (upsert "A" (zip cs vs) Sample.index))) = 4.
Proof. vm_compute. split; reflexivity. Qed.

Example ingest_succeeds :
  snd (ingest Sample.chunker Sample.embed "A" Sample.fox [] Sample.index) = Ok 5.
Proof. vm_compute. reflexivity. Qed.

Lemma retrieve_top_k_ranked_witness :
  exists ps : list RetrievedPassage,
    retrieve Sample.distance Sample.embed Sample.fox None 2 Sample.index = Ok ps /\
    length ps <= 2 /\
    forall (i j : nat) (p q : RetrievedPassage),
      i < j -> ps !! i = Some p -> ps !! j = Some q ->
      (relevance q <= relevance p)%Q /\
      ((relevance p == relevance q)%Q -> passage_seq p <= passage_seq q).
Proof.
  apply (retrieve_top_k_ranked Sample.distance Sample.embed Sample.fox None 2
           Sample.index [0%Q] []).
  reflexivity.
Defined.

Example retrieve_sample :
  match retrieve Sample.distance Sample.embed Sample.fox None 2 Sample.index,
        retrieve Sample.distance Sample.embed Sample.fox None 5 Sample.index with
  | Ok top2, Ok top5 =>
      Sample.ids top2 = [("A", 1); ("B", 4)] /\
      Sample.ids top5 = [("A", 1); ("B", 4); ("A", 5)]
  | _, _ => False
  end.
Proof. vm_compute. split; reflexivity. Qed.

End CoreFacts.

(** ** Query path *)

Lemma mapM_encode_passage (ps : list Core.RetrievedPassage) :
  mapM Passage_of_json (Core.encode_passage <$> ps) = Some (Core.passage_view <$> ps).
Proof.
  induction ps as [|p ps IH]; [reflexivity |].
  rewrite !fmap_cons. cbn [mapM]. rewrite IH. reflexivity.
Qed.

Lemma mapM_encode_strings (qs : list Core.text) :
  mapM as_string ((fun q => JString (string_of_list_ascii q)) <$> qs) =
  Some (string_of_list_ascii <$> qs).
Proof.
  induction qs as [|q qs IH]; [reflexivity |].
  rewrite !fmap_cons. cbn [mapM]. rewrite IH. reflexivity.
Qed.

(** The client reads the response body of an answer as the view of that
    answer. *)
Lemma decode_encode_response (a : Core.Answer) :
  QuestionResponse_of_json (Core.encode_response a) = Some (Core.response_view a).
Proof.
  unfold QuestionResponse_of_json, Core.encode_response, typed_property.
  cbn [property List.find fst snd String.eqb Ascii.eqb Bool.eqb fmap option_fmap
       option_map as_string as_number as_array].
  rewrite mapM_encode_passage, mapM_encode_strings. reflexivity.
Qed.

Lemma QuestionResponse_keys_cases (key : string) :
  key ∈ QuestionResponse_keys ->
  key = "answer" \/ key = "passages" \/ key = "confidence" \/
  key = "tokens_used" \/ key = "follow_up_questions".
Proof.
  unfold QuestionResponse_keys. rewrite !elem_of_cons, elem_of_nil.
  intros H. repeat destruct H as [H | H]; auto 6. contradiction.
Qed.

(** A value that lacks one of the five properties is not a
    [QuestionResponse]. *)
Lemma QuestionResponse_needs_property (j : Json) (key : string) :
  key ∈ QuestionResponse_keys ->
  property key j = None ->
  QuestionResponse_of_json j = None.
Proof.
  intros Hkey Hnone. apply QuestionResponse_keys_cases in Hkey.
  unfold QuestionResponse_of_json, typed_property.
  repeat destruct Hkey as [Hkey | Hkey]; subst key;
    rewrite Hnone; repeat case_match; reflexivity.
Qed.




(** * Further properties of the client code *)

(** ** [ApiClient]: token, key and storage *)

Lemma truthy_Some (s : string) : JS.truthy (Some s) = true <-> s <> "".
Proof.
  simpl. destruct (String.eqb_spec s ""); simpl; split; congruence.
Qed.

(** X1. Logging out after a token was set leaves the client exactly as a
    logout without that token would: the token, its storage entry and its
    header leave no trace. *)
Theorem logout_after_setAuthToken (tok : string) (c : ApiClient.t) :
  ApiClient.logout (ApiClient.setAuthToken tok c) = ApiClient.logout c.
Proof.
  unfold ApiClient.logout, ApiClient.setAuthToken. simpl.
  now rewrite !delete_insert_eq.
Qed.

Ltac sync_close :=
  repeat split; intros; try first [assumption | congruence | discriminate | solve [auto]].

Lemma constructor_in_sync (axios_common local session : gmap string string) :
  in_sync (ApiClient.constructor axios_common local session).
Proof.
  unfold in_sync, ApiClient.constructor. simpl.
  destruct (local !! "auth_token") as [tok |] eqn:E; simpl.
  - destruct (String.eqb_spec tok ""); simpl.
    + subst tok. rewrite E. simpl. sync_close.
    + rewrite lookup_insert_eq. simpl.
      destruct (String.eqb_spec tok ""); [contradiction |]. simpl.
      sync_close.
  - rewrite E. sync_close.
Qed.

Lemma setAuthToken_in_sync (tok : string) (c : ApiClient.t) :
  in_sync c -> in_sync (ApiClient.setAuthToken tok c).
Proof.
  intros (_ & _ & H3 & H4). unfold in_sync. simpl.
  rewrite lookup_insert_eq. sync_close.
Qed.

Lemma setApiKey_in_sync (key : JS.nullable string) (c : ApiClient.t) :
  in_sync c -> in_sync (ApiClient.setApiKey key c).
Proof.
  intros (H1 & H2 & _ & _). unfold in_sync, ApiClient.setApiKey.
  destruct key as [k |]; simpl.
  - destruct (String.eqb_spec k ""); simpl.
    + rewrite lookup_delete_eq. subst k. simpl. sync_close.
    + rewrite lookup_insert_eq. simpl.
      destruct (String.eqb_spec k ""); [contradiction |]. simpl.
      sync_close.
  - rewrite lookup_delete_eq. simpl. sync_close.
Qed.

Lemma logout_in_sync (c : ApiClient.t) :
  in_sync c -> in_sync (ApiClient.logout c).
Proof.
  intros (_ & _ & H3 & H4). unfold in_sync. simpl.
  rewrite lookup_delete_eq. simpl. sync_close.
Qed.

(** X2. The client and the browser storage stay in step: a newly
    constructed client agrees with the storage it was read from, and
    [setAuthToken], [setApiKey] and [logout] keep that agreement, also for
    an empty token or key. *)
Theorem client_storage_in_sync :
  (forall axios_common local session : gmap string string,
     in_sync (ApiClient.constructor axios_common local session)) /\
  (forall (c : ApiClient.t) (tok : string) (key : JS.nullable string),
     in_sync c ->
     in_sync (ApiClient.setAuthToken tok c) /\
     in_sync (ApiClient.setApiKey key c) /\
     in_sync (ApiClient.logout c)).
Proof.
  split.
  - apply constructor_in_sync.
  - intros c tok key H. split; [| split].
    + now apply setAuthToken_in_sync.
    + now apply setApiKey_in_sync.
    + now apply logout_in_sync.
Qed.

Lemma client_storage_in_sync_witness :
  in_sync (ApiClient.setAuthToken "jwt" (ApiClient.constructor ∅ ∅ ∅)) /\
  in_sync (ApiClient.setApiKey (Some "sk-test") (ApiClient.constructor ∅ ∅ ∅)) /\
  in_sync (ApiClient.logout (ApiClient.constructor ∅ ∅ ∅)).
Proof.
  destruct client_storage_in_sync as [Hnew Hkeep].
  apply (Hkeep (ApiClient.constructor ∅ ∅ ∅) "jwt" (Some "sk-test")).
  apply Hnew.
Defined.

(** X3. A page reload neither logs the user in nor out and neither adds
    nor drops the API key: the client constructed over the storage of a
    client that is in step with it is authenticated exactly when the old
    one was, has a key exactly when the old one had, with the same token
    and key, and reads the storage without changing it. *)
Theorem reload_keeps_session (axios_common : gmap string string) (c : ApiClient.t) :
  in_sync c ->
  ApiClient.isAuthenticated (ApiClientResponses.reload axios_common c) =
    ApiClient.isAuthenticated c /\
  ApiClient.hasApiKey (ApiClientResponses.reload axios_common c) =
    ApiClient.hasApiKey c /\
  (ApiClient.isAuthenticated c = true ->
   ApiClient.token (ApiClientResponses.reload axios_common c) = ApiClient.token c) /\
  (ApiClient.hasApiKey c = true ->
   ApiClient.apiKey (ApiClientResponses.reload axios_common c) = ApiClient.apiKey c) /\
  ApiClient.localStorage (ApiClientResponses.reload axios_common c) =
    ApiClient.localStorage c /\
  ApiClient.sessionStorage (ApiClientResponses.reload axios_common c) =
    ApiClient.sessionStorage c.
Proof.
  intros (H1 & H2 & H3 & H4).
  unfold ApiClientResponses.reload, ApiClient.constructor,
    ApiClient.isAuthenticated, ApiClient.hasApiKey in *.
  cbn [ApiClient.token ApiClient.apiKey].
  destruct (ApiClient.localStorage c !! "auth_token") as [tok |] eqn:E.
  - destruct (JS.truthy (Some tok)) eqn:T.
    + cbn [ApiClient.token ApiClient.apiKey ApiClient.localStorage
           ApiClient.sessionStorage ApiClient.setAuthToken].
      rewrite (insert_id _ _ _ E), T, H1, <- H3.
      repeat split; intros; try congruence.
      * rewrite H2 by congruence. reflexivity.
      * symmetry. now apply H4.
    + cbn [ApiClient.token ApiClient.apiKey ApiClient.localStorage
           ApiClient.sessionStorage].
      rewrite T, H1, <- H3.
      repeat split; intros; try congruence.
      symmetry. now apply H4.
  - cbn [ApiClient.token ApiClient.apiKey ApiClient.localStorage
         ApiClient.sessionStorage].
    rewrite H1, <- H3. simpl.
    repeat split; intros; try congruence.
    symmetry. now apply H4.
Qed.

Lemma reload_keeps_session_witness :
  ApiClient.isAuthenticated
    (ApiClientResponses.reload ∅
       (ApiClient.setApiKey (Some "sk-test")
          (ApiClient.setAuthToken "jwt" (ApiClient.constructor ∅ ∅ ∅)))) = true.
Proof.
  destruct (reload_keeps_session ∅
              (ApiClient.setApiKey (Some "sk-test")
                 (ApiClient.setAuthToken "jwt" (ApiClient.constructor ∅ ∅ ∅))))
    as (Hauth & _).
  - apply setApiKey_in_sync, setAuthToken_in_sync, constructor_in_sync.
  - rewrite Hauth. reflexivity.
Defined.

(** X4. Removing the API key undoes any earlier [setApiKey]: the client
    is the one a removal alone would leave. Setting the empty string acts
    as a removal on the session storage and on the outgoing header, and
    the client then reports that it has no key. *)
Theorem setApiKey_removal (key : JS.nullable string) (c : ApiClient.t)
    (request_headers : gmap string string) :
  ApiClient.setApiKey None (ApiClient.setApiKey key c) = ApiClient.setApiKey None c /\
  ApiClient.hasApiKey (ApiClient.setApiKey None c) = false /\
  ApiClient.hasApiKey (ApiClient.setApiKey (Some "") c) = false /\
  ApiClient.sessionStorage (ApiClient.setApiKey (Some "") c) =
    ApiClient.sessionStorage (ApiClient.setApiKey None c) /\
  ApiClient.outgoing_headers (ApiClient.setApiKey (Some "") c) request_headers =
    ApiClient.outgoing_headers (ApiClient.setApiKey None c) request_headers.
Proof.
  split; [| repeat split].
  unfold ApiClient.setApiKey. destruct key as [k |]; simpl.
  - destruct (negb (String.eqb k "")); simpl.
    + now rewrite !delete_insert_eq.
    + now rewrite !delete_delete_eq.
  - now rewrite !delete_delete_eq.
Qed.

Lemma outgoing_lookup_api_key (c : ApiClient.t) (config : gmap string string) :
  ApiClient.request_interceptor c config !! "X-API-Key" =
  if JS.truthy (ApiClient.apiKey c) then ApiClient.apiKey c
  else config !! "X-API-Key".
Proof.
  unfold ApiClient.request_interceptor.
  destruct (ApiClient.apiKey c) as [k |] eqn:K.
  - destruct (JS.truthy (Some k)) eqn:T.
    + now rewrite lookup_insert_eq.
    + destruct (ApiClient.token c) as [tok |]; [| reflexivity].
      destruct (JS.truthy (Some tok)); [| reflexivity].
      now rewrite lookup_insert_ne.
  - cbn [JS.truthy].
    destruct (ApiClient.token c) as [tok |]; [| reflexivity].
    destruct (JS.truthy (Some tok)); [| reflexivity].
    now rewrite lookup_insert_ne.
Qed.

Lemma outgoing_lookup_authorization (c : ApiClient.t) (config : gmap string string) :
  ApiClient.request_interceptor c config !! "Authorization" =
  match ApiClient.token c with
  | Some tok => if JS.truthy (Some tok) then Some ("Bearer " ++ tok)
                else config !! "Authorization"
  | None => config !! "Authorization"
  end.
Proof.
  unfold ApiClient.request_interceptor.
  assert (Hskip : forall h : gmap string string,
             match ApiClient.apiKey c with
             | Some k => if JS.truthy (ApiClient.apiKey c)
                         then <["X-API-Key" := k]> h else h
             | None => h
             end !! "Authorization" = h !! "Authorization").
  { intros h. destruct (ApiClient.apiKey c) as [k |]; [| reflexivity].
    destruct (JS.truthy (Some k)); [| reflexivity].
    now rewrite lookup_insert_ne. }
  rewrite Hskip.
  destruct (ApiClient.token c) as [tok |]; [| reflexivity].
  destruct (JS.truthy (Some tok)); [| reflexivity].
  now rewrite lookup_insert_eq.
Qed.

(** X5. After [logout] the client puts no [Authorization] header on a
    request: the header of an outgoing request is the one the request
    itself carries, if any. The [X-API-Key] header goes out as before the
    logout. *)
Theorem logout_outgoing (c : ApiClient.t) (request_headers : gmap string string) :
  ApiClient.outgoing_headers (ApiClient.logout c) request_headers !! "Authorization" =
    request_headers !! "Authorization" /\
  ApiClient.outgoing_headers (ApiClient.logout c) request_headers !! "X-API-Key" =
    ApiClient.outgoing_headers c request_headers !! "X-API-Key".
Proof.
  unfold ApiClient.outgoing_headers. split.
  - rewrite outgoing_lookup_authorization. cbn [ApiClient.logout ApiClient.token
      ApiClient.headers_common].
    rewrite lookup_union, lookup_delete_eq.
    destruct (request_headers !! "Authorization"); reflexivity.
  - rewrite !outgoing_lookup_api_key. cbn [ApiClient.logout ApiClient.apiKey
      ApiClient.headers_common].
    destruct (JS.truthy (ApiClient.apiKey c)); [reflexivity |].
    rewrite !lookup_union, lookup_delete_ne by discriminate. reflexivity.
Qed.

(** X6. Every request of a client that holds a token leaves with
    [Authorization: Bearer <token>], and every request of a client that
    holds an API key leaves with that key in [X-API-Key], whatever headers
    the request itself and the defaults carry. *)
Theorem outgoing_credentials (c : ApiClient.t) (request_headers : gmap string string) :
  (forall tok : string,
     ApiClient.token c = Some tok -> tok <> "" ->
     ApiClient.outgoing_headers c request_headers !! "Authorization" =
       Some ("Bearer " ++ tok)) /\
  (forall k : string,
     ApiClient.apiKey c = Some k -> k <> "" ->
     ApiClient.outgoing_headers c request_headers !! "X-API-Key" = Some k).
Proof.
  unfold ApiClient.outgoing_headers. split.
  - intros tok Htok Hne. rewrite outgoing_lookup_authorization, Htok.
    apply truthy_Some in Hne. now rewrite Hne.
  - intros k Hk Hne. rewrite outgoing_lookup_api_key, Hk.
    apply truthy_Some in Hne. now rewrite Hne.
Qed.

Lemma outgoing_credentials_witness :
  let c := ApiClient.setApiKey (Some "sk-test")
             (ApiClient.setAuthToken "jwt" (ApiClient.constructor ∅ ∅ ∅)) in
  ApiClient.outgoing_headers c {["Authorization" := "Basic abc"]} !! "Authorization" =
    Some "Bearer jwt" /\
  ApiClient.outgoing_headers c {["Authorization" := "Basic abc"]} !! "X-API-Key" =
    Some "sk-test".
Proof.
  intros c.
  destruct (outgoing_credentials c {["Authorization" := "Basic abc"]}) as [Ha Hk].
  split.
  - apply (Ha "jwt"); [reflexivity | discriminate].
  - apply (Hk "sk-test"); [reflexivity | discriminate].
Defined.

(** X7. Of all failed responses only a 401 changes the client, and it
    changes it as [logout] does: the API key, the session storage and the
    key header survive every failed response, the token survives every
    failure other than a 401, and a 401 sends the browser to the login
    page. *)
Theorem response_error_effect (status : JS.nullable Z) (detail : JS.nullable string)
    (c : ApiClient.t) :
  fst (ApiClientResponses.response_error status detail c) =
    (if decide (status = Some 401) then ApiClient.logout c else c) /\
  ApiClient.apiKey (fst (ApiClientResponses.response_error status detail c)) =
    ApiClient.apiKey c /\
  ApiClient.sessionStorage (fst (ApiClientResponses.response_error status detail c)) =
    ApiClient.sessionStorage c /\
  (ApiClientResponses.redirect "/login" ∈
     snd (ApiClientResponses.response_error status detail c) <->
   status = Some 401).
Proof.
  assert (Hneq : forall m, ApiClientResponses.redirect "/login" <>
                           ApiClientResponses.toast_error m) by discriminate.
  unfold ApiClientResponses.response_error.
  destruct status as [code |].
  - destruct (Z.eqb_spec code 401) as [-> | H401].
    + rewrite decide_True by reflexivity. cbn [fst snd].
      repeat split; intros; try reflexivity. apply list_elem_of_here.
    + rewrite decide_False by congruence.
      destruct (code =? 429); [| destruct (code =? 400); [| destruct (code =? 500)]];
        cbn [fst snd]; repeat split; intros; try congruence; exfalso.
      * apply list_elem_of_singleton in H. now apply Hneq in H.
      * destruct (JS.includes _ _).
        -- apply list_elem_of_singleton in H. now apply Hneq in H.
        -- now apply not_elem_of_nil in H.
      * apply list_elem_of_singleton in H. now apply Hneq in H.
      * now apply not_elem_of_nil in H.
  - rewrite decide_False by discriminate. cbn [fst snd].
    repeat split; intros; try congruence.
    exfalso. now apply not_elem_of_nil in H.
Qed.

(** What the rejection handler leaves of the client. *)
Lemma response_error_client (status : JS.nullable Z) (detail : JS.nullable string)
    (c : ApiClient.t) :
  fst (ApiClientResponses.response_error status detail c) =
    (if decide (status = Some 401) then ApiClient.logout c else c) /\
  ApiClient.apiKey (if decide (status = Some 401) then ApiClient.logout c else c) =
    ApiClient.apiKey c /\
  ApiClient.sessionStorage (if decide (status = Some 401) then ApiClient.logout c else c) =
    ApiClient.sessionStorage c.
Proof.
  split; [| split; destruct (decide (status = Some 401)); reflexivity].
  unfold ApiClientResponses.response_error.
  destruct status as [code |]; [| now rewrite decide_False].
  destruct (Z.eqb_spec code 401) as [-> | H401].
  - now rewrite decide_True.
  - rewrite decide_False by congruence.
    destruct (code =? 429); [| destruct (code =? 400); [| destruct (code =? 500)]];
      reflexivity.
Qed.

(** ** [trim] and blank input *)

Lemma all_white_space_rev_app (s1 s2 : string) :
  all_white_space (String.rev_app s1 s2) = all_white_space s1 && all_white_space s2.
Proof.
  revert s2; induction s1 as [|c s1 IH]; intros s2; simpl; [reflexivity |].
  rewrite IH. simpl. destruct (JS.is_white_space c), (all_white_space s1); reflexivity.
Qed.

Lemma all_white_space_rev (s : string) :
  all_white_space (String.rev s) = all_white_space s.
Proof.
  unfold String.rev. rewrite all_white_space_rev_app. simpl. apply andb_true_r.
Qed.

Lemma rev_app_empty (s1 s2 : string) :
  String.rev_app s1 s2 = "" <-> s1 = "" /\ s2 = "".
Proof.
  revert s2; induction s1 as [|c s1 IH]; intros s2; simpl; [tauto |].
  rewrite IH. split; intros [H1 H2]; discriminate.
Qed.

Lemma trim_start_empty (s : string) :
  JS.trim_start s = "" <-> all_white_space s = true.
Proof.
  induction s as [|c s IH]; simpl; [tauto |].
  destruct (JS.is_white_space c); simpl; [exact IH |].
  split; discriminate.
Qed.

Lemma trim_start_all_white_space (s : string) :
  all_white_space (JS.trim_start s) = all_white_space s.
Proof.
  induction s as [|c s IH]; simpl; [reflexivity |].
  destruct (JS.is_white_space c) eqn:E; simpl; [exact IH |].
  now rewrite E.
Qed.

Lemma rev_empty (s : string) : String.rev s = "" <-> s = "".
Proof. unfold String.rev. rewrite rev_app_empty. tauto. Qed.

(** [trim] returns the empty string exactly on the strings made of white
    space. *)
Lemma trim_empty (s : string) : JS.trim s = "" <-> all_white_space s = true.
Proof.
  unfold JS.trim, JS.trim_end.
  rewrite rev_empty, trim_start_empty, all_white_space_rev.
  now rewrite trim_start_all_white_space.
Qed.

Lemma trim_eqb (s : string) :
  String.eqb (JS.trim s) "" = all_white_space s.
Proof.
  destruct (String.eqb_spec (JS.trim s) "") as [E | E].
  - symmetry. now apply trim_empty.
  - destruct (all_white_space s) eqn:W; [| reflexivity].
    exfalso. apply E. now apply trim_empty.
Qed.

Lemma startsWith_sk_not_blank (s : string) :
  JS.startsWith s "sk-" = true -> all_white_space s = false.
Proof.
  unfold JS.startsWith. destruct s as [|c s]; [discriminate |].
  cbn [String.prefix all_white_space].
  destruct (ascii_dec _ c) as [<- |]; [intros _; reflexivity | discriminate].
Qed.

(** ** [ApiKeySettings] *)

Lemma substring_app_prefix (pre rest : string) :
  String.substring 0 (String.length pre) (pre ++ rest) = pre.
Proof.
  induction pre as [|c pre IH]; simpl.
  - destruct rest; reflexivity.
  - now rewrite IH.
Qed.

Lemma substring_app_suffix (pre suf : string) :
  String.substring (String.length pre) (String.length suf) (pre ++ suf) = suf.
Proof.
  induction pre as [|c pre IH]; simpl; [apply substring_all | exact IH].
Qed.

Lemma string_app_assoc (s1 s2 s3 : string) :
  (s1 ++ s2) ++ s3 = s1 ++ s2 ++ s3.
Proof.
  induction s1 as [|c s1 IH]; [reflexivity |].
  change (String c ((s1 ++ s2) ++ s3) = String c (s1 ++ s2 ++ s3)).
  now f_equal.
Qed.

(** X8. The mask of a long key shows its first 3 and last 4 characters
    and nothing else: whatever stands in between, and however long it is,
    the mask is the same 10 characters. No mask is longer than 10
    characters. *)
Theorem maskApiKey_hides_middle (pre mid mid' suf : string) :
  String.length pre = 3%nat ->
  String.length suf = 4%nat ->
  (1 <= String.length mid)%nat ->
  (1 <= String.length mid')%nat ->
  maskApiKey (pre ++ mid ++ suf) = pre ++ "..." ++ suf /\
  maskApiKey (pre ++ mid ++ suf) = maskApiKey (pre ++ mid' ++ suf) /\
  (forall key : string, (String.length (maskApiKey key) <= 10)%nat).
Proof.
  intros Hpre Hsuf Hmid Hmid'.
  assert (Hmask : forall m, (1 <= String.length m)%nat ->
                            maskApiKey (pre ++ m ++ suf) = pre ++ "..." ++ suf).
  { intros m Hm. rewrite maskApiKey_long
      by (rewrite !string_length_app; lia).
    rewrite <- Hpre at 1. rewrite substring_app_prefix.
    rewrite <- (string_app_assoc pre m suf).
    replace (String.length ((pre ++ m) ++ suf) - 4)%nat
      with (String.length (pre ++ m)) by (rewrite !string_length_app; lia).
    rewrite <- Hsuf at 1. now rewrite substring_app_suffix. }
  split; [now apply Hmask |]. split; [now rewrite !Hmask |].
  intros key. destruct (Nat.lt_ge_cases (String.length key) 8) as [Hs | Hl].
  - unfold maskApiKey.
    destruct (Z.ltb_spec (Z.of_nat (String.length key)) 8); lia.
  - rewrite maskApiKey_long by exact Hl. rewrite !string_length_app.
    rewrite !substring_length by lia. simpl. lia.
Qed.

Lemma maskApiKey_hides_middle_witness :
  maskApiKey "sk-abcdefWXYZ" = "sk-...WXYZ" /\
  maskApiKey "sk-abcdefWXYZ" = maskApiKey "sk-0WXYZ".
Proof.
  destruct (maskApiKey_hides_middle "sk-" "abcdef" "0" "WXYZ") as (H1 & H2 & _);
    try reflexivity; try (simpl; lia).
  split; [exact H1 | exact H2].
Defined.

(** X9. [handleValidateAndSet] replaces the key of the client only by a
    key that starts with [sk-] and that the server reported valid, and
    then stores that key as typed. A key that does not start with [sk-]
    is refused on the spot: no validation request is sent, and the client
    and the component state are unchanged. A negative validation leaves
    the client unchanged. A rejected request never touches the key or the
    session storage; it leaves the client unchanged unless its status is
    401, in which case the response interceptor has logged the user
    out. *)
Theorem handleValidateAndSet_guard (onApiKeySet : bool)
    (st : ApiKeySettings.State) (c : ApiClient.t)
    (response : ApiKeyValidationResponse.t + JS.nullable Z * JS.nullable string) :
  let r := fst (ApiKeySettings.handleValidateAndSet onApiKeySet st c response) in
  (JS.startsWith (ApiKeySettings.apiKey st) "sk-" = false ->
   ApiKeySettings.requested r = None /\
   ApiKeySettings.client r = c /\
   ApiKeySettings.state r = st) /\
  (forall resp : ApiKeyValidationResponse.t,
     JS.startsWith (ApiKeySettings.apiKey st) "sk-" = true ->
     response = inl resp ->
     ApiKeyValidationResponse.valid resp = true ->
     ApiKeySettings.requested r = Some (ApiKeySettings.apiKey st) /\
     ApiKeySettings.client r =
       ApiClient.setApiKey (Some (ApiKeySettings.apiKey st)) c /\
     ApiClient.getApiKey (ApiKeySettings.client r) = Some (ApiKeySettings.apiKey st) /\
     ApiClient.sessionStorage (ApiKeySettings.client r) !! "openai_api_key" =
       Some (ApiKeySettings.apiKey st) /\
     ApiKeySettings.currentKey (ApiKeySettings.state r) = Some (ApiKeySettings.apiKey st) /\
     ApiKeySettings.isValid (ApiKeySettings.state r) = Some true) /\
  (forall resp : ApiKeyValidationResponse.t,
     response = inl resp ->
     ApiKeyValidationResponse.valid resp = false ->
     ApiKeySettings.client r = c) /\
  (forall (status : JS.nullable Z) (detail : JS.nullable string),
     response = inr (status, detail) ->
     ApiClient.apiKey (ApiKeySettings.client r) = ApiClient.apiKey c /\
     ApiClient.sessionStorage (ApiKeySettings.client r) = ApiClient.sessionStorage c /\
     (status <> Some 401 -> ApiKeySettings.client r = c) /\
     (status = Some 401 ->
      JS.startsWith (ApiKeySettings.apiKey st) "sk-" = true ->
      ApiKeySettings.client r = ApiClient.logout c)) /\
  (ApiKeySettings.client r = c \/
   (exists resp : ApiKeyValidationResponse.t,
      response = inl resp /\
      ApiKeyValidationResponse.valid resp = true /\
      JS.startsWith (ApiKeySettings.apiKey st) "sk-" = true /\
      ApiKeySettings.client r =
        ApiClient.setApiKey (Some (ApiKeySettings.apiKey st)) c) \/
   (exists detail : JS.nullable string,
      response = inr (Some 401, detail) /\
      JS.startsWith (ApiKeySettings.apiKey st) "sk-" = true /\
      ApiKeySettings.client r = ApiClient.logout c)).
Proof.
  intros r. subst r. unfold ApiKeySettings.handleValidateAndSet.
  rewrite trim_eqb.
  destruct (JS.startsWith (ApiKeySettings.apiKey st) "sk-") eqn:P.
  - rewrite (startsWith_sk_not_blank _ P). cbn [negb].
    split; [discriminate |]. split; [| split; [| split]].
    + intros resp _ -> Hvalid. rewrite Hvalid.
      cbn [fst ApiKeySettings.requested ApiKeySettings.client ApiKeySettings.state
           ApiKeySettings.currentKey ApiKeySettings.isValid].
      assert (Ht : JS.truthy (Some (ApiKeySettings.apiKey st)) = true).
      { apply truthy_Some. intros E. rewrite E in P. discriminate. }
      unfold ApiClient.getApiKey, ApiClient.setApiKey. rewrite Ht.
      cbn [ApiClient.apiKey ApiClient.sessionStorage].
      rewrite lookup_insert_eq. repeat split.
    + intros resp -> Hvalid. rewrite Hvalid. reflexivity.
    + intros status detail ->. cbn [fst ApiKeySettings.client].
      destruct (response_error_client status detail c) as (Hc & Hk & Hs).
      rewrite Hc. split; [| split; [| split]].
      * destruct (decide (status = Some 401)); reflexivity.
      * destruct (decide (status = Some 401)); reflexivity.
      * intros Hne. now rewrite decide_False.
      * intros He _. now rewrite decide_True.
    + destruct response as [resp | [status detail]].
      * destruct (ApiKeyValidationResponse.valid resp) eqn:V; [| now left].
        right. left. exists resp. repeat split; assumption.
      * cbn [fst ApiKeySettings.client].
        destruct (response_error_client status detail c) as (Hc & _).
        rewrite Hc. destruct (decide (status = Some 401)) as [-> |]; [| now left].
        right. right. exists detail. repeat split.
  - cbn [negb]. destruct (all_white_space (ApiKeySettings.apiKey st));
      cbn [fst ApiKeySettings.requested ApiKeySettings.client ApiKeySettings.state].
    all: split; [intros _; repeat split |].
    all: split; [discriminate |].
    all: split; [reflexivity |].
    all: split; [| now left].
    all: intros status detail _; repeat split; intros; try reflexivity; discriminate.
Qed.

Lemma handleValidateAndSet_guard_witness :
  let st := ApiKeySettings.mkState "sk-expired-session" false false None None None in
  let c := ApiClient.setApiKey (Some "sk-old")
             (ApiClient.setAuthToken "jwt" (ApiClient.constructor ∅ ∅ ∅)) in
  let r := fst (ApiKeySettings.handleValidateAndSet true st c (inr (Some 401, None))) in
  ApiClient.apiKey (ApiKeySettings.client r) = Some "sk-old" /\
  ApiKeySettings.client r = ApiClient.logout c /\
  ApiKeySettings.client
    (fst (ApiKeySettings.handleValidateAndSet true
            (ApiKeySettings.mkState " sk-leading-space" false false None None None) c
            (inl (ApiKeyValidationResponse.mk true "ok" (Some "gpt-4"))))) = c.
Proof.
  intros st c r. subst r. split; [| split].
  - destruct (handleValidateAndSet_guard true st c (inr (Some 401, None)))
      as (_ & _ & _ & Hrej & _).
    destruct (Hrej (Some 401) None eq_refl) as (Hkey & _). exact Hkey.
  - destruct (handleValidateAndSet_guard true st c (inr (Some 401, None)))
      as (_ & _ & _ & Hrej & _).
    destruct (Hrej (Some 401) None eq_refl) as (_ & _ & _ & Hout).
    apply Hout; reflexivity.
  - destruct (handleValidateAndSet_guard true
                (ApiKeySettings.mkState " sk-leading-space" false false None None None) c
                (inl (ApiKeyValidationResponse.mk true "ok" (Some "gpt-4"))))
      as (Hrefuse & _).
    apply Hrefuse. reflexivity.
Defined.

Example handleValidateAndSet_accepts :
  let st := ApiKeySettings.mkState "sk-live" false false None None None in
  let r := fst (ApiKeySettings.handleValidateAndSet true st (ApiClient.constructor ∅ ∅ ∅)
                  (inl (ApiKeyValidationResponse.mk true "ok" (Some "gpt-4")))) in
  ApiClient.getApiKey (ApiKeySettings.client r) = Some "sk-live" /\
  ApiKeySettings.notified r = true /\
  ApiKeySettings.toasts r =
    [ApiKeySettings.toast_success "API key validated! Using model: gpt-4"].
Proof. vm_compute. repeat split. Qed.

Example handleValidateAndSet_expired :
  let st := ApiKeySettings.mkState "sk-live" false false None None None in
  let c := ApiClient.setAuthToken "jwt" (ApiClient.constructor ∅ ∅ ∅) in
  let run := ApiKeySettings.handleValidateAndSet true st c (inr (Some 401, None)) in
  ApiClient.isAuthenticated (ApiKeySettings.client (fst run)) = false /\
  ApiKeySettings.toasts (fst run) =
    [ApiKeySettings.toast_error "Failed to validate API key"] /\
  snd run = [ApiClientResponses.redirect "/login";
             ApiClientResponses.toast_error "Session expired. Please login again."].
Proof. vm_compute. repeat split. Qed.

(** ** [QueryInterface] *)

(** X10. [handleSubmit] sends nothing for a question made of white space
    only: it shows "Please enter a question" and changes no state. Any
    other question is sent exactly as typed, without trimming; the input
    is cleared and the component is loading. *)
Theorem handleSubmit_blank (now : Z) (st : QueryInterface.State) :
  (all_white_space (QueryInterface.question st) = true ->
   QueryInterface.handleSubmit_begin now st =
     QueryInterface.rejected (QueryInterface.toast_error "Please enter a question")) /\
  (all_white_space (QueryInterface.question st) = false ->
   exists (st' : QueryInterface.State) (body : QueryInterface.AskBody),
     QueryInterface.handleSubmit_begin now st = QueryInterface.submitted st' body /\
     QueryInterface.body_question body = QueryInterface.question st /\
     QueryInterface.question st' = "" /\
     QueryInterface.loading st' = true /\
     QueryInterface.selectedPlaybook st' = QueryInterface.selectedPlaybook st).
Proof.
  unfold QueryInterface.handleSubmit_begin. rewrite trim_eqb.
  split; intros H; rewrite H; [reflexivity |].
  eexists _, _. split; [reflexivity |]. repeat split.
Qed.

Lemma handleSubmit_blank_witness :
  QueryInterface.handleSubmit_begin 0
    (QueryInterface.mkState "   " "all" false [] None) =
  QueryInterface.rejected (QueryInterface.toast_error "Please enter a question").
Proof.
  apply (handleSubmit_blank 0 (QueryInterface.mkState "   " "all" false [] None)).
  reflexivity.
Defined.

(** X11. A question that is sent adds exactly two turns to the
    conversation, whether the request succeeds or fails: the user turn
    with the question, then one assistant turn, which carries the answer
    and confidence of the response or, on failure, confidence 0. The
    component stops loading in both cases. *)
Theorem exchange_appends_two_turns (now now' : Z)
    (st st1 : QueryInterface.State) (body : QueryInterface.AskBody)
    (res : QuestionResponse + JS.nullable string) :
  QueryInterface.handleSubmit_begin now st = QueryInterface.submitted st1 body ->
  exists u a : ConversationMessage,
    QueryInterface.conversation (fst (QueryInterface.handleSubmit_end now' st1 res)) =
      (QueryInterface.conversation st ++ [u; a])%list /\
    role u = user /\
    msg_content u = QueryInterface.question st /\
    role a = assistant /\
    msg_confidence a =
      Some (match res with inl r => confidence r | inr _ => 0%Q end) /\
    (forall r : QuestionResponse, res = inl r ->
       msg_content a = answer r /\ msg_passages a = Some (passages r)) /\
    QueryInterface.loading (fst (QueryInterface.handleSubmit_end now' st1 res)) = false.
Proof.
  unfold QueryInterface.handleSubmit_begin.
  destruct (String.eqb _ _); [discriminate |].
  intros H. injection H as <- _.
  destruct res as [r | detail]; cbn [QueryInterface.handleSubmit_end fst
    QueryInterface.conversation QueryInterface.loading].
  - eexists _, _. split; [now rewrite <- app_assoc |].
    repeat split; intros; try reflexivity;
      match goal with H : inl _ = inl _ |- _ => injection H as <-; reflexivity end.
  - eexists _, _. split; [now rewrite <- app_assoc |].
    repeat split; intros; try reflexivity; discriminate.
Qed.

Lemma exchange_appends_two_turns_witness :
  let res : QuestionResponse + JS.nullable string := inr None in
  let st1 := QueryInterface.mkState "" "all" true
               [mkConversationMessage user "Which fonts?" 0 None None] None in
  exists u a : ConversationMessage,
    QueryInterface.conversation (fst (QueryInterface.handleSubmit_end 1 st1 res)) =
      ([] ++ [u; a])%list /\
    role u = user /\
    msg_content u = "Which fonts?" /\
    role a = assistant /\
    msg_confidence a = Some 0%Q /\
    (forall r : QuestionResponse, res = inl r ->
       msg_content a = answer r /\ msg_passages a = Some (passages r)) /\
    QueryInterface.loading (fst (QueryInterface.handleSubmit_end 1 st1 res)) = false.
Proof.
  intros res st1.
  apply (exchange_appends_two_turns 0 1
           (QueryInterface.mkState "Which fonts?" "all" false [] None)
           st1 (QueryInterface.mkAskBody "Which fonts?" None []) res).
  reflexivity.
Defined.

(** X12. The question and answer of the last exchange are always the last
    two entries of the history sent with the next question, after at most
    4 entries for the turns before them. *)
Theorem history_keeps_last_exchange (conv : list ConversationMessage)
    (u a : ConversationMessage) :
  QueryInterface.conversationHistory (conv ++ [u; a]) =
    ((QueryInterface.to_history <$> drop (List.length conv - 4) conv) ++
     [QueryInterface.to_history u; QueryInterface.to_history a])%list /\
  (List.length (QueryInterface.to_history <$> drop (List.length conv - 4) conv) <= 4)%nat.
Proof.
  unfold QueryInterface.conversationHistory.
  change (-6) with (- Z.of_nat 6). rewrite slice_from_negative.
  rewrite length_app. cbn [List.length].
  replace (List.length conv + 2 - 6)%nat with (List.length conv - 4)%nat by lia.
  rewrite drop_app_le by lia. rewrite fmap_app. split; [reflexivity |].
  rewrite length_fmap, length_drop. lia.
Qed.

(** ** [DocumentList] *)

Lemma loop_cond_false (size : number) (k : nat) :
  DocumentList.loop_cond size k = false -> (k < 3)%nat -> (size < 1024)%Q.
Proof.
  intros Hc Hk. apply Qnot_le_lt. intros Hle.
  assert (Ht : DocumentList.loop_cond size k = true)
    by (apply loop_cond_true; split; assumption).
  congruence.
Qed.

Lemma shrink_ge_1 (size : number) :
  (1024 <= size)%Q -> (1 <= DocumentList.shrink size)%Q.
Proof.
  intros H. unfold DocumentList.shrink. apply Qle_shift_div_l; [reflexivity |].
  now rewrite Qmult_1_l.
Qed.

Lemma pow_1024_succ (m : nat) :
  (inject_Z (1024 ^ Z.of_nat (S m)) == inject_Z (1024 ^ Z.of_nat m) * 1024)%Q.
Proof.
  rewrite Nat2Z.inj_succ, Z.pow_succ_r by lia.
  rewrite inject_Z_mult. apply Qmult_comm.
Qed.

Lemma shrink_nonneg (size : number) :
  (0 <= size)%Q -> (0 <= DocumentList.shrink size)%Q.
Proof.
  intros H. unfold DocumentList.shrink. apply Qle_shift_div_l; [reflexivity |].
  now rewrite Qmult_0_l.
Qed.

Lemma size_loop_value_from (n : nat) :
  forall (size : number) (k : nat),
    (k + n = 3)%nat ->
    exists (size' : number) (i : nat),
      DocumentList.size_loop size k = (size', i) /\
      (k <= i <= 3)%nat /\
      (size' * inject_Z (1024 ^ Z.of_nat (i - k)) == size)%Q /\
      ((i < 3)%nat -> (size' < 1024)%Q) /\
      ((k < i)%nat -> (1 <= size')%Q) /\
      ((0 <= size)%Q -> (0 <= size')%Q).
Proof.
  induction n as [|n IH]; intros size k Hk; rewrite size_loop_unfold;
    destruct (DocumentList.loop_cond size k) eqn:Hc.
  - apply loop_cond_true in Hc. lia.
  - exists size, k. rewrite Nat.sub_diag. simpl.
    repeat split; try lia; try (intros; assumption). apply Qmult_1_r.
  - apply loop_cond_true in Hc as [Hsize Hk3].
    destruct (IH (DocumentList.shrink size) (S k))
      as (size' & i & Hl & Hi & Hv & Hlt & Hge & Hpos); [lia |].
    exists size', i. split; [exact Hl |]. split; [lia |].
    split; [| split; [| split]].
    + replace (i - k)%nat with (S (i - S k)) by lia.
      rewrite pow_1024_succ, Qmult_assoc, Hv. unfold DocumentList.shrink. field.
    + exact Hlt.
    + intros _. destruct (Nat.eq_dec i (S k)) as [-> | Hne].
      * rewrite Nat.sub_diag in Hv. simpl in Hv. rewrite Qmult_1_r in Hv.
        rewrite Hv. now apply shrink_ge_1.
      * apply Hge. lia.
    + intros H0. now apply Hpos, shrink_nonneg.
  - exists size, k. rewrite Nat.sub_diag. simpl.
    repeat split; try lia; try (intros; assumption).
    + apply Qmult_1_r.
    + intros _. apply (loop_cond_false size k Hc). lia.
Qed.

Lemma pretty_digit (d : Z) :
  0 <= d < 10 -> Number.pad_zeros 1 (pretty d) = pretty d.
Proof.
  intros H.
  assert (Hd : d = 0 \/ d = 1 \/ d = 2 \/ d = 3 \/ d = 4 \/
               d = 5 \/ d = 6 \/ d = 7 \/ d = 8 \/ d = 9) by lia.
  repeat destruct Hd as [Hd | Hd]; subst d; vm_compute; reflexivity.
Qed.

(** [toFixed(1)] on a value from 0 up to [10^21]: the tenths nearest to
    the value, printed as integer part, point and one digit. *)
Lemma toFixed_1_tenths (toString : Q -> string) (x : number) :
  (0 <= x)%Q -> (x < inject_Z (10 ^ 21))%Q ->
  Number.toFixed toString x 1 =
    pretty (DocumentListView.shown_tenths x / 10) ++ "." ++
    pretty (DocumentListView.shown_tenths x mod 10).
Proof.
  intros H0 Hbig. unfold Number.toFixed, DocumentListView.shown_tenths.
  destruct (Qlt_le_dec x 0) as [Hneg | _].
  { exfalso. apply (Qlt_irrefl x). now apply Qlt_le_trans with 0%Q. }
  assert (Habs : (Qabs x == x)%Q) by now apply Qabs_pos.
  assert (Hsmall : Qle_bool (inject_Z (10 ^ 21)) (Qabs x) = false).
  { destruct (Qle_bool (inject_Z (10 ^ 21)) (Qabs x)) eqn:E; [| reflexivity].
    apply Qle_bool_iff in E. rewrite Habs in E. exfalso.
    apply (Qlt_irrefl x). now apply Qlt_le_trans with (inject_Z (10 ^ 21)). }
  rewrite Hsmall.
  change (10 ^ Z.of_nat 1) with 10.
  assert (Hn : Qfloor (Qabs x * inject_Z 10 + (1 # 2)) = Qfloor (x * 10 + (1 # 2))).
  { apply Qfloor_comp. now rewrite Habs. }
  rewrite Hn. cbn [String.append].
  rewrite pretty_digit by (apply Z.mod_pos_bound; lia).
  reflexivity.
Qed.

Lemma shown_tenths_bounds (x : number) :
  (0 <= x)%Q ->
  0 <= DocumentListView.shown_tenths x /\
  (inject_Z (DocumentListView.shown_tenths x) - (1 # 2) <= x * 10)%Q /\
  (x * 10 < inject_Z (DocumentListView.shown_tenths x) + (1 # 2))%Q.
Proof.
  intros H0. unfold DocumentListView.shown_tenths.
  set (y := (x * 10 + (1 # 2))%Q).
  pose proof (Qfloor_le y) as Hle. pose proof (Qlt_floor y) as Hlt.
  assert (Hy : (0 <= y)%Q).
  { unfold y. apply Qle_trans with (0 * 10 + 0)%Q; [discriminate |].
    apply Qplus_le_compat; [| discriminate].
    apply Qmult_le_compat_r; [assumption | discriminate]. }
  split; [| split].
  - change 0 with (Qfloor 0). now apply Qfloor_resp_le.
  - assert (E : (x * 10 == y + - (1 # 2))%Q) by (unfold y; ring).
    rewrite E. unfold Qminus. apply Qplus_le_compat; [exact Hle | apply Qle_refl].
  - assert (E1 : (x * 10 == y + - (1 # 2))%Q) by (unfold y; ring).
    assert (E2 : (inject_Z (Qfloor y) + (1 # 2) ==
                  inject_Z (Qfloor y + 1) + - (1 # 2))%Q)
      by (rewrite inject_Z_plus; ring).
    rewrite E1, E2. apply Qplus_lt_l. exact Hlt.
Qed.

(** X13. [formatFileSize] keeps the quantity it formats: the value handed
    to [toFixed], multiplied by 1024 once for each step from B to the
    unit, is the byte count; that value is below 1024 unless the unit is
    GB and at least 1 as soon as the unit is not B. For a byte count from
    0 on, the number shown is that value rounded to the nearest tenth, a
    half rounding up: it is within 0.05 of the value, so it can reach
    1024.0 in B, KB and MB (1048575 bytes are shown as 1024.0 KB) and does
    not go beyond. *)
Theorem formatFileSize_value (toString : Q -> string) (bytes size : number) (i : nat) :
  DocumentList.size_loop bytes 0 = (size, i) ->
  DocumentList.formatFileSize toString bytes =
    Number.toFixed toString size 1 ++ " " ++ DocumentList.unit_at i /\
  (size * inject_Z (1024 ^ Z.of_nat i) == bytes)%Q /\
  ((i < 3)%nat -> (size < 1024)%Q) /\
  ((0 < i)%nat -> (1 <= size)%Q) /\
  ((0 <= bytes)%Q -> (size < inject_Z (10 ^ 21))%Q ->
   DocumentList.formatFileSize toString bytes =
     (pretty (DocumentListView.shown_tenths size / 10) ++ "." ++
      pretty (DocumentListView.shown_tenths size mod 10)) ++
     " " ++ DocumentList.unit_at i /\
   0 <= DocumentListView.shown_tenths size /\
   (inject_Z (DocumentListView.shown_tenths size) - (1 # 2) <= size * 10)%Q /\
   (size * 10 < inject_Z (DocumentListView.shown_tenths size) + (1 # 2))%Q /\
   ((i < 3)%nat -> DocumentListView.shown_tenths size <= 10240)).
Proof.
  intros Hloop.
  destruct (size_loop_value_from 3 bytes 0 eq_refl)
    as (size' & i' & Hl & _ & Hv & Hlt & Hge & Hpos).
  rewrite Hloop in Hl. injection Hl as <- <-. rewrite Nat.sub_0_r in Hv.
  unfold DocumentList.formatFileSize. rewrite Hloop.
  split; [reflexivity |]. split; [exact Hv |]. split; [exact Hlt |].
  split; [exact Hge |].
  intros H0 Hbig. specialize (Hpos H0).
  destruct (shown_tenths_bounds size Hpos) as (Hn0 & Hlo & Hhi).
  split; [now rewrite toFixed_1_tenths |].
  split; [exact Hn0 |]. split; [exact Hlo |]. split; [exact Hhi |].
  intros Hi. specialize (Hlt Hi).
  assert (Hq : (inject_Z (DocumentListView.shown_tenths size) < inject_Z 10241)%Q).
  { apply Qle_lt_trans with (size * 10 + (1 # 2))%Q.
    - apply Qplus_le_l with (z := (- (1 # 2))%Q). ring_simplify.
      ring_simplify in Hlo. exact Hlo.
    - apply Qlt_le_trans with (1024 * 10 + (1 # 2))%Q; [| discriminate].
      apply Qplus_lt_l. apply Qmult_lt_compat_r; [reflexivity | exact Hlt]. }
  rewrite <- Zlt_Qlt in Hq. lia.
Qed.

Lemma formatFileSize_value_witness :
  DocumentList.formatFileSize (fun _ => "") 1048575%Q = "1024.0 KB" /\
  DocumentListView.shown_tenths (DocumentList.shrink 1048575%Q) = 10240.
Proof.
  destruct (formatFileSize_value (fun _ => "") 1048575%Q
              (DocumentList.shrink 1048575%Q) 1 eq_refl)
    as (_ & _ & _ & _ & Hshown).
  destruct Hshown as (Hs & _ & _ & _ & Hmax); [discriminate | reflexivity |].
  split.
  - rewrite Hs. vm_compute. reflexivity.
  - apply Z.le_antisymm; [apply Hmax; lia | vm_compute; discriminate].
Defined.

Lemma shrink_lt (size bound : number) :
  (size < bound * 1024)%Q -> (DocumentList.shrink size < bound)%Q.
Proof.
  intros H. unfold DocumentList.shrink. now apply Qlt_shift_div_r.
Qed.

Lemma shrink_le (size bound : number) :
  (bound * 1024 <= size)%Q -> (bound <= DocumentList.shrink size)%Q.
Proof.
  intros H. unfold DocumentList.shrink. now apply Qle_shift_div_l.
Qed.

Lemma loop_cond_small (size : number) (k : nat) :
  (size < 1024)%Q -> DocumentList.loop_cond size k = false.
Proof.
  intros H. destruct (DocumentList.loop_cond size k) eqn:Hc; [| reflexivity].
  apply loop_cond_true in Hc as [Hc _]. exfalso.
  apply (Qlt_irrefl size). now apply Qlt_le_trans with 1024%Q.
Qed.

Lemma loop_cond_big (size : number) (k : nat) :
  (1024 <= size)%Q -> (k < 3)%nat -> DocumentList.loop_cond size k = true.
Proof. intros H Hk. apply loop_cond_true. now split. Qed.

(** X14. The unit is chosen by the size alone, at the powers of 1024: a
    count below 1024 (a negative one too) is printed as it is in B, one
    from 1024 up to 1048576 is divided once and printed in KB, one from
    1048576 up to 1073741824 is divided twice and printed in MB, and
    one from 1073741824 on is divided three times and printed in GB. *)
Theorem formatFileSize_ranges (toString : Q -> string) (bytes : number) :
  ((bytes < 1024)%Q ->
   DocumentList.formatFileSize toString bytes =
     Number.toFixed toString bytes 1 ++ " B") /\
  ((1024 <= bytes)%Q -> (bytes < 1048576)%Q ->
   DocumentList.formatFileSize toString bytes =
     Number.toFixed toString (DocumentList.shrink bytes) 1 ++ " KB") /\
  ((1048576 <= bytes)%Q -> (bytes < 1073741824)%Q ->
   DocumentList.formatFileSize toString bytes =
     Number.toFixed toString
       (DocumentList.shrink (DocumentList.shrink bytes)) 1 ++ " MB") /\
  ((1073741824 <= bytes)%Q ->
   DocumentList.formatFileSize toString bytes =
     Number.toFixed toString
       (DocumentList.shrink (DocumentList.shrink (DocumentList.shrink bytes))) 1
     ++ " GB").
Proof.
  unfold DocumentList.formatFileSize. repeat split.
  - intros H. rewrite size_loop_unfold, loop_cond_small by exact H. reflexivity.
  - intros H1 H2.
    rewrite size_loop_unfold, loop_cond_big by (assumption || lia).
    rewrite size_loop_unfold, loop_cond_small by (now apply shrink_lt).
    reflexivity.
  - intros H1 H2.
    assert (H0 : (1024 <= bytes)%Q)
      by (eapply Qle_trans; [| exact H1]; discriminate).
    rewrite size_loop_unfold, loop_cond_big by (assumption || lia).
    rewrite size_loop_unfold, loop_cond_big by (try lia; now apply shrink_le).
    rewrite size_loop_unfold, loop_cond_small
      by (apply shrink_lt, shrink_lt; exact H2).
    reflexivity.
  - intros H1.
    assert (H0 : (1048576 <= bytes)%Q)
      by (eapply Qle_trans; [| exact H1]; discriminate).
    assert (H00 : (1024 <= bytes)%Q)
      by (eapply Qle_trans; [| exact H0]; discriminate).
    rewrite size_loop_unfold, loop_cond_big by (assumption || lia).
    rewrite size_loop_unfold, loop_cond_big by (try lia; now apply shrink_le).
    rewrite size_loop_unfold, loop_cond_big
      by (try lia; apply shrink_le, shrink_le; exact H1).
    rewrite size_loop_unfold.
    replace (DocumentList.loop_cond _ 3) with false; [reflexivity |].
    symmetry. unfold DocumentList.loop_cond. apply andb_false_r.
Qed.

Lemma formatFileSize_ranges_witness :
  DocumentList.formatFileSize (fun _ => "") 1023%Q = "1023.0 B" /\
  DocumentList.formatFileSize (fun _ => "") 1024%Q = "1.0 KB" /\
  DocumentList.formatFileSize (fun _ => "") 1048576%Q = "1.0 MB" /\
  DocumentList.formatFileSize (fun _ => "") 1073741824%Q = "1.0 GB".
Proof.
  split; [| split; [| split]].
  - rewrite (proj1 (formatFileSize_ranges (fun _ => "") 1023%Q)) by reflexivity.
    reflexivity.
  - destruct (formatFileSize_ranges (fun _ => "") 1024%Q) as (_ & H & _).
    rewrite H; [reflexivity | discriminate | reflexivity].
  - destruct (formatFileSize_ranges (fun _ => "") 1048576%Q) as (_ & _ & H & _).
    rewrite H; [reflexivity | discriminate | reflexivity].
  - destruct (formatFileSize_ranges (fun _ => "") 1073741824%Q) as (_ & _ & _ & H).
    rewrite H; [reflexivity | discriminate].
Defined.

(** X15. The pagination controls keep the page within [1 .. totalPages]:
    from a page in range, Previous, Next and every page button lead to a
    page in range; Previous on the first page and Next on the last page
    stay where they are; there is one button for each page. *)
Theorem pagination_in_range (totalPages page : Z) :
  1 <= page <= totalPages ->
  1 <= DocumentListView.previousPage page <= totalPages /\
  1 <= DocumentListView.nextPage totalPages page <= totalPages /\
  (forall target : Z, target ∈ DocumentListView.pageButtons totalPages ->
                      1 <= target <= totalPages) /\
  DocumentListView.pageButtons totalPages !! Z.to_nat (page - 1) = Some page /\
  DocumentListView.previousPage 1 = 1 /\
  DocumentListView.nextPage totalPages totalPages = totalPages.
Proof.
  intros Hpage.
  unfold DocumentListView.previousPage, DocumentListView.nextPage,
    DocumentListView.pageButtons.
  repeat split; try lia.
  - apply list_elem_of_fmap in H as (i & -> & Hi). lia.
  - apply list_elem_of_fmap in H as (i & -> & Hi).
    apply elem_of_seq in Hi. lia.
  - rewrite list_lookup_fmap, lookup_seq_lt by lia. simpl. f_equal. lia.
Qed.

Lemma pagination_in_range_witness :
  1 <= DocumentListView.previousPage 3 <= 3 /\
  1 <= DocumentListView.nextPage 3 3 <= 3 /\
  (forall target : Z, target ∈ DocumentListView.pageButtons 3 -> 1 <= target <= 3) /\
  DocumentListView.pageButtons 3 !! Z.to_nat (3 - 1) = Some 3 /\
  DocumentListView.previousPage 1 = 1 /\
  DocumentListView.nextPage 3 3 = 3.
Proof. apply (pagination_in_range 3 3). lia. Defined.

Lemma includes_empty (s : string) : JS.includes s "" = true.
Proof. destruct s; reflexivity. Qed.

Lemma prefix_refl (s : string) : String.prefix s s = true.
Proof.
  induction s as [|c s IH]; [reflexivity |].
  cbn [String.prefix]. destruct (ascii_dec c c); [exact IH | contradiction].
Qed.

Lemma includes_refl (s : string) : JS.includes s s = true.
Proof. destruct s; cbn [JS.includes]; now rewrite prefix_refl. Qed.

Lemma to_lower_idempotent (c : ascii) : JS.to_lower (JS.to_lower c) = JS.to_lower c.
Proof.
  destruct c as [[] [] [] [] [] [] [] []]; vm_compute; reflexivity.
Qed.

Lemma toLowerCase_idempotent (s : string) :
  JS.toLowerCase (JS.toLowerCase s) = JS.toLowerCase s.
Proof.
  induction s as [|c s IH]; simpl; [reflexivity |].
  now rewrite to_lower_idempotent, IH.
Qed.

(** X16. The search box of the document list: with an empty search term
    every document is listed; a document is always found by its own file
    name; the letter case of the term does not matter; and the result
    lists documents of the page only, in their order. *)
Theorem filteredDocuments_search (documents : list Playbook) (searchTerm : string) :
  DocumentListView.filteredDocuments documents "" = documents /\
  (forall doc : Playbook,
     doc ∈ documents ->
     doc ∈ DocumentListView.filteredDocuments documents (filename doc)) /\
  DocumentListView.filteredDocuments documents (JS.toLowerCase searchTerm) =
    DocumentListView.filteredDocuments documents searchTerm /\
  DocumentListView.filteredDocuments documents searchTerm `sublist_of` documents.
Proof.
  unfold DocumentListView.filteredDocuments. repeat split.
  - induction documents as [|d ds IH]; simpl; [reflexivity |].
    rewrite includes_empty. now f_equal.
  - intros doc Hdoc. apply list_elem_of_In, List.filter_In.
    split; [now apply list_elem_of_In | apply includes_refl].
  - now rewrite toLowerCase_idempotent.
  - induction documents as [|d ds IH]; simpl; [constructor |].
    destruct (JS.includes _ _); now constructor.
Qed.

Example filteredDocuments_case :
  let doc (name : string) := mkPlaybook name name "pdf" 1%Q "me" "2024" 3%Q in
  DocumentListView.filteredDocuments
    [doc "Brand Guide.pdf"; doc "logo.pptx"; doc "REBRAND.docx"] "BRAND" =
  [doc "Brand Guide.pdf"; doc "REBRAND.docx"].
Proof. vm_compute. reflexivity. Qed.

Lemma filteredDocuments_search_witness :
  let doc := mkPlaybook "1" "Brand Guide.pdf" "pdf" 1%Q "me" "2024" 3%Q in
  doc ∈ DocumentListView.filteredDocuments [doc] "Brand Guide.pdf".
Proof.
  intros doc.
  destruct (filteredDocuments_search [doc] "") as (_ & Hfound & _).
  apply (Hfound doc). apply list_elem_of_here.
Defined.

(** ** The life of a session *)

(** X17. Removing the key in the settings panel removes it for good and
    touches nothing else: after [handleRemoveKey] the client has no key,
    a reload finds none either, a panel mounted again shows none, and the
    user is authenticated exactly as before. *)
Theorem handleRemoveKey_removes (axios_common : gmap string string)
    (st st' : ApiKeySettings.State) (c : ApiClient.t) :
  let c' := ApiKeySettings.client (ApiKeySettings.handleRemoveKey st c) in
  ApiClient.hasApiKey c' = false /\
  ApiClient.hasApiKey (ApiClientResponses.reload axios_common c') = false /\
  ApiKeySettings.on_mount st' c' = st' /\
  ApiKeySettings.on_mount st' (ApiClientResponses.reload axios_common c') = st' /\
  ApiClient.isAuthenticated c' = ApiClient.isAuthenticated c /\
  ApiClient.localStorage c' = ApiClient.localStorage c.
Proof.
  intros c'. subst c'.
  unfold ApiKeySettings.handleRemoveKey, ApiKeySettings.on_mount,
    ApiClientResponses.reload, ApiClient.constructor, ApiClient.hasApiKey,
    ApiClient.getApiKey, ApiClient.isAuthenticated.
  cbn [ApiKeySettings.client ApiClient.setApiKey ApiClient.apiKey
       ApiClient.sessionStorage ApiClient.localStorage ApiClient.token].
  rewrite lookup_delete_eq. repeat split.
Qed.

(** X18. Logging in survives a reload and logging out does too: after a
    login response with an access token the reloaded client is
    authenticated with that token; after [logout] the reloaded client is
    not authenticated; and a login response without a token, or with an
    empty one, leaves the client as it was. *)
Theorem session_survives_reload (axios_common : gmap string string)
    (c : ApiClient.t) :
  (forall tok : string,
     tok <> "" ->
     ApiClient.token
       (ApiClientResponses.reload axios_common
          (ApiClientResponses.login_resolved (Some tok) c)) = Some tok /\
     ApiClient.isAuthenticated
       (ApiClientResponses.reload axios_common
          (ApiClientResponses.login_resolved (Some tok) c)) = true) /\
  ApiClient.isAuthenticated
    (ApiClientResponses.reload axios_common (ApiClient.logout c)) = false /\
  ApiClientResponses.login_resolved None c = c /\
  ApiClientResponses.login_resolved (Some "") c = c.
Proof.
  split; [| repeat split].
  - intros tok Hne. apply truthy_Some in Hne.
    unfold ApiClientResponses.login_resolved, ApiClientResponses.reload,
      ApiClient.constructor, ApiClient.isAuthenticated.
    rewrite Hne.
    cbn [ApiClient.setAuthToken ApiClient.localStorage ApiClient.sessionStorage
         ApiClient.token].
    rewrite lookup_insert_eq, Hne.
    cbn [ApiClient.setAuthToken ApiClient.token]. now rewrite Hne.
  - unfold ApiClientResponses.reload, ApiClient.constructor,
      ApiClient.isAuthenticated.
    cbn [ApiClient.logout ApiClient.localStorage ApiClient.sessionStorage
         ApiClient.token].
    now rewrite lookup_delete_eq.
Qed.

Lemma session_survives_reload_witness :
  ApiClient.isAuthenticated
    (ApiClientResponses.reload ∅
       (ApiClientResponses.login_resolved (Some "jwt")
          (ApiClient.constructor ∅ ∅ ∅))) = true.
Proof.
  destruct (session_survives_reload ∅ (ApiClient.constructor ∅ ∅ ∅)) as [Hin _].
  apply (Hin "jwt"). discriminate.
Defined.
